(** * OpenFermion: linear swap network Trotter steps and the optimal
      Givens decomposition

    A shallow embedding of

    - [openfermion/trotter/algorithms/linear_swap_network.py]
    - [openfermion/primitives/optimal_givens_decomposition.py]

    Python floats are read as exact rationals ([Q]); complex numbers are
    pairs of rationals.  A generator is modelled by its trace: the list of
    values it yields, followed by the exception that ended it, if any.
    Functions the two files call but do not define ([swap_network],
    [givens_matrix_elements], [givens_rotate], [numpy.arcsin],
    [numpy.angle]) are parameters of the model. *)

From Stdlib Require Import String List ZArith QArith Qabs Bool Lia Lqa.
From Stdlib Require Import Reals Qreals Lra.
Import ListNotations.

Set Implicit Arguments.
Set Warnings "-register-all".

(** ** Numbers *)

Record complex : Type := mkC { real : Q; imag : Q }.

Definition Cadd (a b : complex) : complex :=
  mkC (real a + real b) (imag a + imag b).

Definition Csub (a b : complex) : complex :=
  mkC (real a - real b) (imag a - imag b).

Definition Cmul (a b : complex) : complex :=
  mkC (real a * real b - imag a * imag b) (real a * imag b + imag a * real b).

(** [z.conj()] *)
Definition Cconj (a : complex) : complex := mkC (real a) (- imag a).

(** [abs(z)**2] *)
Definition normsq (a : complex) : Q := real a * real a + imag a * imag a.

(** [1 / z]; [0] where Python would raise a division by zero. *)
Definition Cinv (a : complex) : complex :=
  mkC (real a / normsq a) (- imag a / normsq a).

Definition Cdiv (a b : complex) : complex := Cmul a (Cinv b).

(** A real number seen as a complex one. *)
Definition RtoC (x : Q) : complex := mkC x 0.

(** [numpy.isclose] and [numpy.allclose] with their default tolerances *)
Definition rtol : Q := 1 # 100000.
Definition atol : Q := 1 # 100000000.

(** [numpy.isclose(a, b)] on reals: [|a - b| <= atol + rtol * |b|]. *)
Definition isclose (a b : Q) : bool :=
  Qle_bool (Qabs (a - b)) (atol + rtol * Qabs b).

(** [numpy.isclose(a, b)] on complex numbers: the same comparison on moduli,
    [|a - b| <= atol + rtol * |b|].  With [X = |a - b|^2] and [Y = |b|^2]
    it holds exactly when [X - atol^2 - rtol^2 * Y] is non-positive or has a
    square of at most [(2 * atol * rtol)^2 * Y], which needs no square
    root. *)
Definition Cisclose (a b : complex) : bool :=
  let X := normsq (Csub a b) in
  let Y := normsq b in
  let L := X - atol * atol - rtol * rtol * Y in
  Qle_bool L 0 || Qle_bool (L * L) (4 * (atol * atol) * (rtol * rtol) * Y).

(** ** Exceptions and generators *)

Inductive Exn : Type :=
| TypeError (msg : string)
| IndexError
| GivensTranspositionError (msg : string)
| GivensMatrixError (msg : string).

(** What a consumer of a generator observes: the yielded values, in order,
    and the exception raised after the last one ([None] on normal
    exhaustion). *)
Definition Generator (A : Type) : Type := (list A * option Exn)%type.

Definition yielded {A} (g : Generator A) : list A := fst g.
Definition raised {A} (g : Generator A) : option Exn := snd g.

(** [yield x] followed by the rest of the generator body. *)
Definition yield_then {A} (x : A) (g : Generator A) : Generator A :=
  (x :: fst g, snd g).

(** [for x in l: yield f x], where evaluating [f x] may raise. *)
Fixpoint gen_for {A B} (f : A -> Exn + B) (l : list A) : Generator B :=
  match l with
  | [] => ([], None)
  | x :: rest =>
      match f x with
      | inl e => ([], Some e)
      | inr b => yield_then b (gen_for f rest)
      end
  end.

(** Python sequence indexing [l[k]]: negative indices count from the end,
    anything else out of range raises [IndexError]. *)
Definition py_getitem {A} (l : list A) (k : Z) : Exn + A :=
  let n := Z.of_nat (List.length l) in
  let k' := if (k <? 0)%Z then (k + n)%Z else k in
  if ((0 <=? k') && (k' <? n))%Z%bool
  then match nth_error l (Z.to_nat k') with
       | Some x => inr x
       | None => inl IndexError
       end
  else inl IndexError.

(** [range(lo, hi)] *)
Definition range (lo hi : Z) : list Z :=
  map (fun k => (lo + Z.of_nat k)%Z) (seq 0 (Z.to_nat (hi - lo))).

(** [enumerate(l)] *)
Definition enumerate {A} (l : list A) : list (Z * A) :=
  combine (range 0 (Z.of_nat (List.length l))) l.

(** ** Gates and operations (the part of [cirq] and [openfermion.gates]
    the two files use) *)

Inductive Gate : Type :=
| Rxxyy (theta : Q)
| Ryxxy (theta : Q)
| rot11 (rads : Q)
| CRxxyy (theta : Q)
| CRyxxy (theta : Q)
| rot111 (rads : Q)
| rz (rads : Q)
| ZPow (exponent : Q).          (* cirq.Z ** exponent *)

Inductive Operation (Qid : Type) : Type :=
| On (g : Gate) (qubits : list Qid).

Arguments On {Qid} g qubits.

(** [cirq.OP_TREE]: an operation or an iterable of op-trees. *)
Inductive OpTree (Qid : Type) : Type :=
| Leaf (op : Operation Qid)
| Node (children : list (OpTree Qid)).

Arguments Leaf {Qid} op.
Arguments Node {Qid} children.

(** * linear_swap_network.py *)

Module LinearSwapNetwork.

Section TrotterSteps.

(** [cirq.Qid] *)
Variable Qid : Type.

(** A value passed for the optional [control_qubit] argument. *)
Inductive PyObject : Type :=
| PyNone
| PyQid (q : Qid)
| PyOther (tag : nat).

(** [isinstance(o, cirq.Qid)] *)
Definition isinstance_Qid (o : PyObject) : bool :=
  match o with PyQid _ => true | _ => false end.

(** [ops.DiagonalCoulombHamiltonian]: the three coefficient arrays. *)
Record Hamiltonian : Type := mkHamiltonian {
  one_body : Z -> Z -> complex;
  two_body : Z -> Z -> Q;
  constant : Q
}.

(** The callback handed to the swap network: [operation(p, q, a, b)],
    a generator of operations. *)
Definition Interaction : Type := Z -> Z -> Qid -> Qid -> list (Operation Qid).

(** [primitives.swap_network(qubits, operation, fermionic=, offset=)].
    The primitive is not part of these sources; arguments left out at the
    call site are [None]. *)
Variable swap_network :
  list Qid -> option Interaction -> option bool -> option bool -> OpTree Qid.

Variable hamiltonian : Hamiltonian.

Definition half : Q := 1 # 2.

(** [(gate(-one_body[i, i].real * time).on(..., qubits[i])
      for i in range(n_qubits))] *)
Definition potential_layer (mk : Q -> Qid -> Operation Qid)
    (qubits : list Qid) (time : Q) (n_qubits : Z) : Generator (OpTree Qid) :=
  gen_for (fun i =>
             match py_getitem qubits i with
             | inl e => inl e
             | inr q =>
                 inr (Leaf (mk (- real (one_body hamiltonian i i) * time) q))
             end)
          (range 0 n_qubits).

(** Yielding a nested generator: the consumer flattens it, so an
    exception inside it ends the enclosing generator as well. *)
Definition yield_nested (inner : Generator (OpTree Qid))
    (k : Generator (OpTree Qid)) : Generator (OpTree Qid) :=
  match raised inner with
  | Some e => ([Node (yielded inner)], Some e)
  | None => yield_then (Node (yielded inner)) k
  end.

(** *** SymmetricLinearSwapNetworkTrotterStep *)

Definition Symmetric_one_and_two_body_interaction (time : Q) : Interaction :=
  fun p q a b =>
    [ On (Rxxyy (half * real (one_body hamiltonian p q) * time)) [a; b];
      On (Ryxxy (half * imag (one_body hamiltonian p q) * time)) [a; b];
      On (rot11 (- two_body hamiltonian p q * time)) [a; b] ].

Definition Symmetric_one_and_two_body_interaction_reverse_order (time : Q)
  : Interaction :=
  fun p q a b =>
    [ On (rot11 (- two_body hamiltonian p q * time)) [a; b];
      On (Ryxxy (half * imag (one_body hamiltonian p q) * time)) [a; b];
      On (Rxxyy (half * real (one_body hamiltonian p q) * time)) [a; b] ].

Definition Symmetric_trotter_step (qubits : list Qid) (time : Q)
    (control_qubit : PyObject) : Generator (OpTree Qid) :=
  let n_qubits := Z.of_nat (List.length qubits) in
  yield_then
    (swap_network qubits
       (Some (Symmetric_one_and_two_body_interaction time)) (Some true) None)
    (let qubits := rev qubits in
     yield_nested
       (potential_layer (fun r q => On (rz r) [q]) qubits time n_qubits)
       (yield_then
          (swap_network qubits
             (Some (Symmetric_one_and_two_body_interaction_reverse_order time))
             (Some true) (Some true))
          ([], None))).

(** *** ControlledSymmetricLinearSwapNetworkTrotterStep *)

Definition ControlledSymmetric_one_and_two_body_interaction
    (control_qubit : Qid) (time : Q) : Interaction :=
  fun p q a b =>
    [ On (CRxxyy (half * real (one_body hamiltonian p q) * time))
         [control_qubit; a; b];
      On (CRyxxy (half * imag (one_body hamiltonian p q) * time))
         [control_qubit; a; b];
      On (rot111 (- two_body hamiltonian p q * time)) [control_qubit; a; b] ].

Definition ControlledSymmetric_one_and_two_body_interaction_reverse_order
    (control_qubit : Qid) (time : Q) : Interaction :=
  fun p q a b =>
    [ On (rot111 (- two_body hamiltonian p q * time)) [control_qubit; a; b];
      On (CRyxxy (half * imag (one_body hamiltonian p q) * time))
         [control_qubit; a; b];
      On (CRxxyy (half * real (one_body hamiltonian p q) * time))
         [control_qubit; a; b] ].

Definition ControlledSymmetric_trotter_step (qubits : list Qid) (time : Q)
    (control_qubit : PyObject) : Generator (OpTree Qid) :=
  let n_qubits := Z.of_nat (List.length qubits) in
  match control_qubit with
  | PyQid c =>
      yield_then
        (swap_network qubits
           (Some (ControlledSymmetric_one_and_two_body_interaction c time))
           (Some true) None)
        (let qubits := rev qubits in
         yield_nested
           (potential_layer (fun r q => On (rot11 r) [c; q])
              qubits time n_qubits)
           (yield_then
              (swap_network qubits
                 (Some (ControlledSymmetric_one_and_two_body_interaction_reverse_order
                          c time))
                 (Some true) (Some true))
              (yield_then
                 (Leaf (On (rz (- constant hamiltonian * time)) [c]))
                 ([], None))))
  | _ => ([], Some (TypeError "Control qudit must be specified."))
  end.

(** *** AsymmetricLinearSwapNetworkTrotterStep *)

Definition Asymmetric_one_and_two_body_interaction (time : Q) : Interaction :=
  fun p q a b =>
    [ On (Rxxyy (real (one_body hamiltonian p q) * time)) [a; b];
      On (Ryxxy (imag (one_body hamiltonian p q) * time)) [a; b];
      On (rot11 (- (2) * two_body hamiltonian p q * time)) [a; b] ].

Definition Asymmetric_trotter_step (qubits : list Qid) (time : Q)
    (control_qubit : PyObject) : Generator (OpTree Qid) :=
  let n_qubits := Z.of_nat (List.length qubits) in
  yield_then
    (swap_network qubits
       (Some (Asymmetric_one_and_two_body_interaction time)) (Some true) None)
    (let qubits := rev qubits in
     yield_nested
       (potential_layer (fun r q => On (rz r) [q]) qubits time n_qubits)
       ([], None)).

Definition Asymmetric_step_qubit_permutation (qubits : list Qid)
    (control_qubit : PyObject) : list Qid * PyObject :=
  (rev qubits, PyNone).

(** [n_steps & 1 and not omit_final_swaps], as a truth value *)
Definition swap_back (n_steps : Z) (omit_final_swaps : bool) : bool :=
  negb (Z.land n_steps 1 =? 0)%Z && negb omit_final_swaps.

Definition Asymmetric_finish (qubits : list Qid) (n_steps : Z)
    (control_qubit : PyObject) (omit_final_swaps : bool)
  : Generator (OpTree Qid) :=
  if swap_back n_steps omit_final_swaps
  then yield_then (swap_network qubits None (Some true) None) ([], None)
  else ([], None).

(** *** ControlledAsymmetricLinearSwapNetworkTrotterStep *)

Definition ControlledAsymmetric_one_and_two_body_interaction
    (control_qubit : Qid) (time : Q) : Interaction :=
  fun p q a b =>
    [ On (CRxxyy (real (one_body hamiltonian p q) * time))
         [control_qubit; a; b];
      On (CRyxxy (imag (one_body hamiltonian p q) * time))
         [control_qubit; a; b];
      On (rot111 (- (2) * two_body hamiltonian p q * time))
         [control_qubit; a; b] ].

Definition ControlledAsymmetric_trotter_step (qubits : list Qid) (time : Q)
    (control_qubit : PyObject) : Generator (OpTree Qid) :=
  let n_qubits := Z.of_nat (List.length qubits) in
  match control_qubit with
  | PyQid c =>
      yield_then
        (swap_network qubits
           (Some (ControlledAsymmetric_one_and_two_body_interaction c time))
           (Some true) None)
        (let qubits := rev qubits in
         yield_nested
           (potential_layer (fun r q => On (rot11 r) [c; q])
              qubits time n_qubits)
           (yield_then
              (Leaf (On (rz (- constant hamiltonian * time)) [c]))
              ([], None)))
  | _ => ([], Some (TypeError "Control qudit must be specified."))
  end.

Definition ControlledAsymmetric_step_qubit_permutation (qubits : list Qid)
    (control_qubit : PyObject) : list Qid * PyObject :=
  (rev qubits, control_qubit).

Definition ControlledAsymmetric_finish (qubits : list Qid) (n_steps : Z)
    (control_qubit : PyObject) (omit_final_swaps : bool)
  : Generator (OpTree Qid) :=
  if swap_back n_steps omit_final_swaps
  then yield_then (swap_network qubits None (Some true) None) ([], None)
  else ([], None).

End TrotterSteps.

(** Single-qubit Z rotations among the operations of a callback, and among
    the entries of an op-tree list that are plain operations. *)
Definition is_rz {Qid} (op : Operation Qid) : bool :=
  match op with On (rz _) [_] => true | _ => false end.

Definition is_rz_leaf {Qid} (t : OpTree Qid) : bool :=
  match t with Leaf op => is_rz op | Node _ => false end.

End LinearSwapNetwork.

(** * optimal_givens_decomposition.py *)

Module OptimalGivens.

(** A 2 x 2 complex array. *)
Record Mat2 : Type := mkMat2 {
  m00 : complex; m01 : complex;
  m10 : complex; m11 : complex
}.

(** [g.T] *)
Definition T (g : Mat2) : Mat2 := mkMat2 (m00 g) (m10 g) (m01 g) (m11 g).

(** [g.conj()] *)
Definition mconj (g : Mat2) : Mat2 :=
  mkMat2 (Cconj (m00 g)) (Cconj (m01 g)) (Cconj (m10 g)) (Cconj (m11 g)).

(** [a.dot(b)] *)
Definition dot (a b : Mat2) : Mat2 :=
  mkMat2 (Cadd (Cmul (m00 a) (m00 b)) (Cmul (m01 a) (m10 b)))
         (Cadd (Cmul (m00 a) (m01 b)) (Cmul (m01 a) (m11 b)))
         (Cadd (Cmul (m10 a) (m00 b)) (Cmul (m11 a) (m10 b)))
         (Cadd (Cmul (m10 a) (m01 b)) (Cmul (m11 a) (m11 b))).

(** [numpy.diag([x, y])] *)
Definition diag2 (x y : complex) : Mat2 :=
  mkMat2 x (RtoC 0) (RtoC 0) y.

(** [numpy.allclose(a, b)] on 2 x 2 arrays *)
Definition allclose (a b : Mat2) : bool :=
  Cisclose (m00 a) (m00 b) && Cisclose (m01 a) (m01 b) &&
  Cisclose (m10 a) (m10 b) && Cisclose (m11 a) (m11 b).

(** The working array [unitary], as its list of rows. *)
Definition ndarray : Type := list (list complex).

(** [u.shape[0]] *)
Definition shape0 (u : ndarray) : Z := Z.of_nat (List.length u).

(** An [N] x [N] array. *)
Definition square (u : ndarray) : Prop :=
  Forall (fun line => List.length line = List.length u) u.

(** Sequencing of computations that may raise. *)
Definition bind {A B} (m : Exn + A) (f : A -> Exn + B) : Exn + B :=
  match m with
  | inl e => inl e
  | inr x => f x
  end.

Notation "x <- m ;; k" := (bind m (fun x => k))
  (at level 61, m at next level, right associativity).

(** [u[r, c]]: [IndexError] outside the array. *)
Definition getitem2 (u : ndarray) (r c : Z) : Exn + complex :=
  line <- py_getitem u r ;; py_getitem line c.

(** [l[k] = x]: [IndexError] outside the list. *)
Definition py_setitem {A} (l : list A) (k : Z) (x : A) : Exn + list A :=
  let n := Z.of_nat (List.length l) in
  let k' := if (k <? 0)%Z then (k + n)%Z else k in
  if ((0 <=? k') && (k' <? n))%Z%bool
  then inr (map (fun p => if (fst p =? k')%Z then x else snd p) (enumerate l))
  else inl IndexError.

(** [u[r, c] = v] *)
Definition setitem2 (u : ndarray) (r c : Z) (v : complex) : Exn + ndarray :=
  line <- py_getitem u r ;;
  line' <- py_setitem line c v ;;
  py_setitem u r line'.

(** [numpy.diag(u)]: the entries [u[k, k]] that exist. *)
Definition diag (u : ndarray) : list complex :=
  flat_map (fun k => match getitem2 u k k with
                     | inr x => [x]
                     | inl _ => []
                     end)
           (range 0 (shape0 u)).

(** An update of [u] in place: the array keeps its shape and gets the entry
    [entry r c] at row [r], column [c]. *)
Definition updated_in_place (u : ndarray) (entry : Z -> Z -> complex) : ndarray :=
  map (fun rl => map (fun cx => entry (fst rl) (fst cx)) (enumerate (snd rl)))
      (enumerate u).

(** The [which] keyword of the two helpers. *)
Inductive Side : Type := left | right.
Inductive Axis : Type := row | col.

(** A recorded rotation: the 2 x 2 matrix and the pair of indices it acts
    on. *)
Definition Rotation : Type := (Mat2 * (Z * Z))%type.

(** Equality of complex numbers and of 2 x 2 arrays as numbers (two
    fractions of equal value are equal). *)
Definition Ceq (a b : complex) : Prop :=
  real a == real b /\ imag a == imag b.

Definition Meq (a b : Mat2) : Prop :=
  Ceq (m00 a) (m00 b) /\ Ceq (m01 a) (m01 b) /\
  Ceq (m10 a) (m10 b) /\ Ceq (m11 a) (m11 b).

Definition identity2 : Mat2 := diag2 (RtoC 1) (RtoC 1).

(** What the decomposition relies on for
    [givens_matrix_elements(a, b, which='left')]: a unitary matrix whose
    first column is real. *)
Definition left_contract (gme : complex -> complex -> Side -> Mat2) : Prop :=
  forall a b,
    imag (m00 (gme a b left)) == 0 /\
    imag (m10 (gme a b left)) == 0 /\
    Meq (dot (T (gme a b left)) (mconj (gme a b left))) identity2.

(** The index pair of a rotation lies inside an [N] x [N] array. *)
Definition within (N : Z) (r : Rotation) : Prop :=
  (0 <= fst (snd r) < N)%Z /\ (0 <= snd (snd r) < N)%Z.

(** Running one generator body after another. *)
Definition gen_seq {A} (g k : Generator A) : Generator A :=
  match raised g with
  | Some e => g
  | None => (yielded g ++ yielded k, raised k)
  end.

(** A [for] loop whose body may raise. *)
Fixpoint fold_exn {S A} (f : S -> A -> Exn + S) (l : list A) (s : S)
  : Exn + S :=
  match l with
  | [] => inr s
  | x :: rest =>
      match f s x with
      | inl e => inl e
      | inr s' => fold_exn f rest s'
      end
  end.

(** The passes such a loop makes: each element it reaches, with the state
    the body starts from. *)
Fixpoint steps_exn {S A} (f : S -> A -> Exn + S) (l : list A) (s : S)
  : list (S * A) :=
  match l with
  | [] => []
  | x :: rest =>
      (s, x) ::
      match f s x with
      | inl _ => []
      | inr s' => steps_exn f rest s'
      end
  end.

Section Decomposition.

Local Open Scope Z_scope.

Variable Qid : Type.

(** [openfermion.ops._givens_rotations.givens_matrix_elements(a, b, which)];
    it is not part of these sources. *)
Variable givens_matrix_elements : complex -> complex -> Side -> Mat2.

(** [openfermion.ops._givens_rotations.givens_rotate(operator,
    givens_rotation, i, j, which)], which updates [operator] in place and is
    not part of these sources either: the value is the entry of [operator]
    at row [r], column [c] after the call. *)
Variable givens_rotate : ndarray -> Mat2 -> Z -> Z -> Axis -> Z -> Z -> complex.

(** [numpy.arcsin], [numpy.angle] and [numpy.pi] *)
Variable arcsin : Q -> Q.
Variable angle : complex -> Q.
Variable pi : Q.

(** State of the elimination loops. *)
Record Elimination : Type := mkElim {
  unitary : ndarray;
  right_rotations : list Rotation;
  left_rotations : list Rotation
}.

(** Body of the inner loop for odd [i]. *)
Definition eliminate_by_column (N i : Z) (s : Elimination) (j : Z)
  : Exn + Elimination :=
  a <- getitem2 (unitary s) (N - j - 1) (i - j - 1) ;;
  b <- getitem2 (unitary s) (N - j - 1) (i - j - 1 + 1) ;;
  let gmat := givens_matrix_elements a b left in
  inr (mkElim (updated_in_place (unitary s)
                 (givens_rotate (unitary s) (mconj gmat) (i - j - 1) (i - j) col))
              (right_rotations s ++ [(T gmat, (i - j - 1, i - j))])
              (left_rotations s)).

(** Body of the inner loop for even [i]. *)
Definition eliminate_by_row (N i : Z) (s : Elimination) (j : Z)
  : Exn + Elimination :=
  a <- getitem2 (unitary s) (N + j - i - 1 - 1) (j - 1) ;;
  b <- getitem2 (unitary s) (N + j - i - 1) (j - 1) ;;
  let gmat := givens_matrix_elements a b right in
  inr (mkElim (updated_in_place (unitary s)
                 (givens_rotate (unitary s) gmat
                    (N + j - i - 2) (N + j - i - 1) row))
              (right_rotations s)
              (left_rotations s ++ [(gmat, (N + j - i - 2, N + j - i - 1))])).

Definition eliminate_step (N : Z) (s : Elimination) (i : Z)
  : Exn + Elimination :=
  if (i mod 2 =? 1)%Z
  then fold_exn (eliminate_by_column N i) (range 0 i) s
  else fold_exn (eliminate_by_row N i) (range 1 (i + 1)) s.

(** Lines 56-87. *)
Definition eliminate (N : Z) (u : ndarray) : Exn + Elimination :=
  fold_exn (eliminate_step N) (range 1 N) (mkElim u [] []).

(** The matrices of one phase shift (lines 92-96). *)
Definition matrix_to_decompose (left_gmat phase_matrix : Mat2) : Mat2 :=
  dot (T (mconj left_gmat)) phase_matrix.

Definition new_givens_matrix (m : Mat2) : Mat2 :=
  givens_matrix_elements (m10 m) (m11 m) left.

Definition new_phase_matrix (m : Mat2) : Mat2 :=
  dot m (T (new_givens_matrix m)).

(** The test of lines 100-101 on [matrix_to_decompose]. *)
Definition transposition_check (m : Mat2) : bool :=
  allclose (dot (new_phase_matrix m) (mconj (new_givens_matrix m))) m.

(** [numpy.diag([unitary[i, i], unitary[j, j]])] (line 91) *)
Definition diag_before (u : ndarray) (r : Rotation) : Exn + Mat2 :=
  x <- getitem2 u (fst (snd r)) (fst (snd r)) ;;
  y <- getitem2 u (snd (snd r)) (snd (snd r)) ;;
  inr (diag2 x y).

(** Body of the loop of lines 90-108. *)
Definition migrate_step (s : ndarray * list Rotation) (r : Rotation)
  : Exn + (ndarray * list Rotation) :=
  phase_matrix <- diag_before (fst s) r ;;
  let m := matrix_to_decompose (fst r) phase_matrix in
  if negb (transposition_check m)
  then inl (GivensTranspositionError
              "Failed to shift the phase matrix from right to left")
  else
    u1 <- setitem2 (fst s) (fst (snd r)) (fst (snd r))
                   (m00 (new_phase_matrix m)) ;;
    u2 <- setitem2 u1 (snd (snd r)) (snd (snd r)) (m11 (new_phase_matrix m)) ;;
    inr (u2, snd s ++ [(mconj (new_givens_matrix m), snd r)]).

(** Lines 89-108. *)
Definition migrate (u : ndarray) (left_rotations : list Rotation)
  : Exn + (ndarray * list Rotation) :=
  fold_exn migrate_step (rev left_rotations) (u, []).

(** The list iterated over at lines 113-114. *)
Definition merged_rotations (new_left_rotations right_rotations : list Rotation)
  : list Rotation :=
  rev new_left_rotations ++
  map (fun x => (T (mconj (fst x)), snd x)) (rev right_rotations).

Definition convention_message : string :=
  "Givens matrix does not obey our convention that all elements in the first column are real".

(** Body of the loop of lines 113-131. *)
Definition check_rotation (rotations : list (Z * Z * Q * Q)) (r : Rotation)
  : Exn + list (Z * Z * Q * Q) :=
  let '(gmat, (i, j)) := r in
  if negb (isclose (imag (m00 gmat)) 0%Q)
  then inl (GivensMatrixError convention_message)
  else if negb (isclose (imag (m10 gmat)) 0%Q)
  then inl (GivensMatrixError convention_message)
  else
    let theta := arcsin (real (m10 gmat)) in
    let phi := angle (m11 gmat) in
    inr (rotations ++ [(i, j, theta, phi)]).

Definition check_rotations (merged : list Rotation)
  : Exn + list (Z * Z * Q * Q) :=
  fold_exn check_rotation merged [].

(** Body of the loop of lines 133-138. *)
Definition emit_rotation (qubits : list Qid) (op : Z * Z * Q * Q)
  : Generator (Operation Qid) :=
  let '(i, j, theta, phi) := op in
  gen_seq
    (if negb (isclose phi 0%Q)
     then match py_getitem qubits j with
          | inl e => ([], Some e)
          | inr qj => ([On (ZPow (phi / pi)%Q) [qj]], None)
          end
     else ([], None))
    (match py_getitem qubits i with
     | inl e => ([], Some e)
     | inr qi =>
         match py_getitem qubits j with
         | inl e => ([], Some e)
         | inr qj => ([On (Ryxxy (- theta)%Q) [qi; qj]], None)
         end
     end).

Fixpoint emit_rotations (qubits : list Qid) (ops : list (Z * Z * Q * Q))
  : Generator (Operation Qid) :=
  match ops with
  | [] => ([], None)
  | op :: rest => gen_seq (emit_rotation qubits op) (emit_rotations qubits rest)
  end.

(** Lines 140-141. *)
Definition emit_phases (qubits : list Qid) (phases : list complex)
  : Generator (Operation Qid) :=
  gen_for (fun '(idx, phase) =>
             match py_getitem qubits idx with
             | inl e => inl e
             | inr q => inr (On (ZPow (angle phase / pi)%Q) [q])
             end)
          (enumerate phases).

(** The array after phase migration together with the merged rotation
    list of lines 113-114, when nothing is raised before. *)
Definition ordered_rotations (u : ndarray) : Exn + (ndarray * list Rotation) :=
  e <- eliminate (shape0 u) u ;;
  s <- migrate (unitary e) (left_rotations e) ;;
  inr (fst s, merged_rotations (snd s) (right_rotations e)).

Definition optimal_givens_decomposition (qubits : list Qid) (u : ndarray)
  : Generator (Operation Qid) :=
  match ordered_rotations u with
  | inl exn => ([], Some exn)
  | inr (u', merged) =>
      let phases := diag u' in
      match check_rotations merged with
      | inl exn => ([], Some exn)
      | inr rotations =>
          gen_seq (emit_rotations qubits (rev rotations))
                  (emit_phases qubits phases)
      end
  end.

(** The rotations the migration loop processes, each with the array as it
    is when the loop body starts on it. *)
Definition migration_steps (s : ndarray * list Rotation) (l : list Rotation)
  : list (ndarray * Rotation) :=
  map (fun sr => (fst (fst sr), snd sr)) (steps_exn migrate_step l s).

Definition processed_left_rotations (u : ndarray) : list (ndarray * Rotation) :=
  match eliminate (shape0 u) u with
  | inl _ => []
  | inr e => migration_steps (unitary e, []) (rev (left_rotations e))
  end.

(** The pass of the migration loop on [r], started on the array [u], fails
    the test of lines 100-101. *)
Definition fails_check (u : ndarray) (r : Rotation) : bool :=
  match diag_before u r with
  | inr phase_matrix =>
      negb (transposition_check (matrix_to_decompose (fst r) phase_matrix))
  | inl _ => false
  end.

(** What one pass of the migration loop appends to [new_left_rotations]
    and writes back to the diagonal. *)
Definition new_rotation (m : Mat2) : Mat2 := mconj (new_givens_matrix m).

Definition new_diag (m : Mat2) : Mat2 :=
  diag2 (m00 (new_phase_matrix m)) (m11 (new_phase_matrix m)).

(** The first-column test of lines 119-126 on one matrix. *)
Definition first_column_close_to_real (g : Mat2) : bool :=
  isclose (imag (m00 g)) 0%Q && isclose (imag (m10 g)) 0%Q.

(** The tuple appended to [rotations] for a rotation that passes the
    test. *)
Definition recorded (r : Rotation) : Z * Z * Q * Q :=
  (fst (snd r), snd (snd r), arcsin (real (m10 (fst r))), angle (m11 (fst r))).

(** What rotation [(i, j, theta, phi)] contributes to the output when the
    qubits are there ([d] stands in for a missing one). *)
Definition rotation_ops (d : Qid) (qubits : list Qid) (op : Z * Z * Q * Q)
  : list (Operation Qid) :=
  let '(i, j, theta, phi) := op in
  (if isclose phi 0%Q then []
   else [On (ZPow (phi / pi)%Q) [nth (Z.to_nat j) qubits d]]) ++
  [On (Ryxxy (- theta)%Q)
      [nth (Z.to_nat i) qubits d; nth (Z.to_nat j) qubits d]].

Definition phase_op (d : Qid) (qubits : list Qid) (p : Z * complex)
  : Operation Qid :=
  On (ZPow (angle (snd p) / pi)%Q) [nth (Z.to_nat (fst p)) qubits d].

End Decomposition.

(** Inverse of a 2 x 2 matrix, by the adjugate. *)
Definition det (g : Mat2) : complex :=
  Csub (Cmul (m00 g) (m11 g)) (Cmul (m01 g) (m10 g)).

Definition minv (g : Mat2) : Mat2 :=
  let d := det g in
  mkMat2 (Cdiv (m11 g) d) (Cdiv (Csub (RtoC 0) (m01 g)) d)
         (Cdiv (Csub (RtoC 0) (m10 g)) d) (Cdiv (m00 g) d).

(** The identity in the words of the specification,
    [new_rotation^{-1} . new_diag = diag_before . rotation],
    within the tolerance of [numpy.allclose], for the left rotation
    [rotation] and the diagonal pair [diag_before]. *)
Definition spec_identity (gme : complex -> complex -> Side -> Mat2)
    (rotation diag_before : Mat2) : bool :=
  let m := matrix_to_decompose rotation diag_before in
  allclose (dot (minv (new_rotation gme m)) (new_diag gme m))
           (dot diag_before rotation).

(** The same identity compared the other way round. *)
Definition spec_identity_sym (gme : complex -> complex -> Side -> Mat2)
    (rotation diag_before : Mat2) : bool :=
  let m := matrix_to_decompose rotation diag_before in
  allclose (dot diag_before rotation)
           (dot (minv (new_rotation gme m)) (new_diag gme m)).

(** The convention in the words of the specification: both entries of the
    first column have zero imaginary part and non-negative real part. *)
Definition first_column_real_nonnegative (g : Mat2) : bool :=
  Qeq_bool (imag (m00 g)) 0 && Qeq_bool (imag (m10 g)) 0 &&
  Qle_bool 0 (real (m00 g)) && Qle_bool 0 (real (m10 g)).

Definition is_Ryxxy {Qid} (op : Operation Qid) : bool :=
  match op with On (Ryxxy _) _ => true | _ => false end.

End OptimalGivens.

(** * Helpers of openfermion.ops._givens_rotations, in exact arithmetic *)

Module GivensRotations.

Import OptimalGivens.

Definition EQ_TOLERANCE : Q := 1 # 100000000.

(** Square root of a rational that is the square of a rational. *)
Definition Qsqrt (x : Q) : Q :=
  let r := Qred x in Z.sqrt (Qnum r) # Pos.sqrt (Qden r).

Definition Cabs (z : complex) : Q := Qsqrt (normsq z).

Definition Qlt_bool (x y : Q) : bool := negb (Qle_bool y x).

Definition Cscale (x : Q) (z : complex) : complex := Cmul (RtoC x) z.

(** The same number with both parts in lowest terms. *)
Definition Cred (z : complex) : complex := mkC (Qred (real z)) (Qred (imag z)).

Definition Mred (g : Mat2) : Mat2 :=
  mkMat2 (Cred (m00 g)) (Cred (m01 g)) (Cred (m10 g)) (Cred (m11 g)).

(** Modelled from the spec: the helper [givens_matrix_elements(a, b, which)]
    is not among the sources.  It returns the 2 x 2 unitary rotation that,
    applied to the two-vector [(a, b)], makes one component zero, built from
    [cosine = |b| / sqrt(|a|^2 + |b|^2)], [sine = |a| / sqrt(|a|^2 + |b|^2)]
    and the relative phase of [a] and [b], with a real first column.  As in
    the comments of lines 61-63 and 75-78 of the decomposition, ['left']
    zeroes the entry passed first and ['right'] the entry passed second.
    The result is exact when [|a|^2], [|b|^2] and their sum are squares of
    rationals. *)
Definition givens_matrix_elements (a b : complex) (which : Side) : Mat2 :=
  let '(cosine, sine, phase) :=
    if Qlt_bool (normsq a) (EQ_TOLERANCE * EQ_TOLERANCE)
    then (1, 0, RtoC 1)
    else if Qlt_bool (normsq b) (EQ_TOLERANCE * EQ_TOLERANCE)
    then (0, 1, RtoC 1)
    else
      let denominator := Qsqrt (normsq a + normsq b) in
      let sign_b := Cdiv b (RtoC (Cabs b)) in
      let sign_a := Cdiv a (RtoC (Cabs a)) in
      (Cabs b / denominator, Cabs a / denominator, Cmul sign_a (Cconj sign_b)) in
  let both_real :=
    Qlt_bool (Qabs (imag a)) EQ_TOLERANCE &&
    Qlt_bool (Qabs (imag b)) EQ_TOLERANCE in
  let neg z := Csub (RtoC 0) z in
  Mred
  match which with
  | left =>
      if both_real
      then mkMat2 (RtoC cosine) (neg (Cscale sine phase))
                  (Cscale sine phase) (RtoC cosine)
      else mkMat2 (RtoC cosine) (neg (Cscale sine phase))
                  (RtoC sine) (Cscale cosine phase)
  | right =>
      if both_real
      then mkMat2 (RtoC sine) (Cscale cosine phase)
                  (neg (Cscale cosine phase)) (RtoC sine)
      else mkMat2 (RtoC sine) (Cscale cosine phase)
                  (RtoC cosine) (neg (Cscale sine phase))
  end.

(** [operator[r, c]], zero outside the array. *)
Definition entry (operator : ndarray) (r c : Z) : complex :=
  match getitem2 operator r c with
  | inr x => x
  | inl _ => RtoC 0
  end.

(** Modelled from the spec: the helper [givens_rotate(operator, g, i, j,
    which)] is not among the sources.  It multiplies the working matrix by
    the rotation in place: for ['row'] rows [i] and [j] become
    [g . (row_i, row_j)]; for ['col'] columns [i] and [j] become
    [g00 col_i + conj(g01) col_j] and [g10 col_i + conj(g11) col_j].  The
    value is the entry at row [r], column [c] afterwards, in lowest
    terms. *)
Definition givens_rotate (operator : ndarray) (g : Mat2) (i j : Z)
    (which : Axis) (r c : Z) : complex :=
  Cred
    match which with
    | row =>
        if (r =? j)%Z
        then Cadd (Cmul (m10 g) (entry operator i c))
                  (Cmul (m11 g) (entry operator j c))
        else if (r =? i)%Z
        then Cadd (Cmul (m00 g) (entry operator i c))
                  (Cmul (m01 g) (entry operator j c))
        else entry operator r c
    | col =>
        if (c =? j)%Z
        then Cadd (Cmul (m10 g) (entry operator r i))
                  (Cmul (Cconj (m11 g)) (entry operator r j))
        else if (c =? i)%Z
        then Cadd (Cmul (m00 g) (entry operator r i))
                  (Cmul (Cconj (m01 g)) (entry operator r j))
        else entry operator r c
    end.

(** Stand-ins for [numpy.arcsin], [numpy.angle] and [numpy.pi] in the
    examples: only the values at 0 are exact. *)
Definition arcsin_stub (x : Q) : Q := x.
Definition angle_stub (z : complex) : Q := imag z.
Definition pi_stub : Q := 355 # 113.

(** A real rotation, and a unitary with a complex column. *)
Definition real_rotation : ndarray :=
  [ [RtoC (4#5); RtoC (3#5)];
    [RtoC (-3#5); RtoC (4#5)] ].

Definition complex_unitary : ndarray :=
  [ [RtoC (4#5); mkC 0 (3#5); RtoC 0];
    [RtoC (3#5); mkC 0 (-4#5); RtoC 0];
    [RtoC 0; RtoC 0; RtoC 1] ].

(** Decidable equality of numbers, and unitarity of a 2 x 2 array and of a
    square array ([u^dagger . u] is the identity). *)
Definition Ceqb (a b : complex) : bool :=
  Qeq_bool (real a) (real b) && Qeq_bool (imag a) (imag b).

Definition Meqb (a b : Mat2) : bool :=
  Ceqb (m00 a) (m00 b) && Ceqb (m01 a) (m01 b) &&
  Ceqb (m10 a) (m10 b) && Ceqb (m11 a) (m11 b).

Definition is_unitary2 (g : Mat2) : bool :=
  Meqb (dot (T (mconj g)) g) identity2.

Definition column_product (u : ndarray) (r c : Z) : complex :=
  fold_left (fun acc k => Cadd acc (Cmul (Cconj (entry u k r)) (entry u k c)))
            (range 0 (shape0 u)) (RtoC 0).

Definition is_unitary (u : ndarray) : bool :=
  forallb (fun r =>
             forallb (fun c =>
                        Ceqb (column_product u r c)
                             (if (r =? c)%Z then RtoC 1 else RtoC 0))
                     (range 0 (shape0 u)))
          (range 0 (shape0 u)).

Definition decompose (qubits : list nat) (u : ndarray)
  : Generator (Operation nat) :=
  optimal_givens_decomposition givens_matrix_elements givens_rotate
    arcsin_stub angle_stub pi_stub qubits u.

End GivensRotations.

(** * Vocabulary for relating the Trotter steps to each other *)

Module TrotterRelations.

(** The controlled counterpart of an operation of an uncontrolled step:
    Rxxyy, Ryxxy, rot11 and rz become CRxxyy, CRyxxy, rot111 and rot11 with
    the control qubit put first. *)
Definition controlled_by {Qid} (c : Qid) (op : Operation Qid) : Operation Qid :=
  match op with
  | On (Rxxyy theta) qs => On (CRxxyy theta) (c :: qs)
  | On (Ryxxy theta) qs => On (CRyxxy theta) (c :: qs)
  | On (rot11 rads) qs => On (rot111 rads) (c :: qs)
  | On (rz rads) qs => On (rot11 rads) (c :: qs)
  | On g qs => On g qs
  end.

Definition controlled_interaction {Qid} (c : Qid)
    (f : LinearSwapNetwork.Interaction Qid) : LinearSwapNetwork.Interaction Qid :=
  fun p q a b => map (controlled_by c) (f p q a b).

(** On an entry of a potential layer, which is a plain operation. *)
Definition controlled_leaf {Qid} (c : Qid) (t : OpTree Qid) : OpTree Qid :=
  match t with
  | Leaf op => Leaf (controlled_by c op)
  | Node l => Node l
  end.

(** The angle (or exponent) a gate carries, and the same gate with another
    one. *)
Definition angle_of (g : Gate) : Q :=
  match g with
  | Rxxyy x | Ryxxy x | rot11 x | CRxxyy x | CRyxxy x | rot111 x | rz x
  | ZPow x => x
  end.

Definition with_angle (g : Gate) (x : Q) : Gate :=
  match g with
  | Rxxyy _ => Rxxyy x
  | Ryxxy _ => Ryxxy x
  | rot11 _ => rot11 x
  | CRxxyy _ => CRxxyy x
  | CRyxxy _ => CRyxxy x
  | rot111 _ => rot111 x
  | rz _ => rz x
  | ZPow _ => ZPow x
  end.

(** The operation with its angle multiplied by [k]. *)
Definition scaled {Qid} (k : Q) (op : Operation Qid) : Operation Qid :=
  match op with
  | On g qs => On (with_angle g (k * angle_of g)) qs
  end.

(** Two operations with the same kind of gate on the same qubits, whose
    angles are equal as numbers. *)
Definition same_operation {Qid} (o1 o2 : Operation Qid) : Prop :=
  match o1, o2 with
  | On g1 qs1, On g2 qs2 =>
      with_angle g1 0 = with_angle g2 0 /\ angle_of g1 == angle_of g2 /\
      qs1 = qs2
  end.

Definition same_leaf {Qid} (t1 t2 : OpTree Qid) : Prop :=
  match t1, t2 with
  | Leaf o1, Leaf o2 => same_operation o1 o2
  | _, _ => False
  end.

Definition scaled_leaf {Qid} (k : Q) (t : OpTree Qid) : OpTree Qid :=
  match t with
  | Leaf op => Leaf (scaled k op)
  | Node l => Node l
  end.

(** The qubit order and control qubit after [n] steps. *)
Definition after_steps {Qid}
    (permutation : list Qid -> LinearSwapNetwork.PyObject Qid
                   -> list Qid * LinearSwapNetwork.PyObject Qid)
    (n : nat) (qubits : list Qid) (control_qubit : LinearSwapNetwork.PyObject Qid)
  : list Qid * LinearSwapNetwork.PyObject Qid :=
  Nat.iter n (fun s => permutation (fst s) (snd s)) (qubits, control_qubit).

End TrotterRelations.

(** * The index pairs of the elimination loops *)

Module GivensSchedule.

(** The pairs recorded by the inner loop for odd [i] (line 67) and for even
    [i] (line 82), in the order of the loop. *)
Definition column_pairs (i : Z) : list (Z * Z) :=
  map (fun j => (i - j - 1, i - j)%Z) (range 0 i).

Definition row_pairs (N i : Z) : list (Z * Z) :=
  map (fun j => (N + j - i - 2, N + j - i - 1)%Z) (range 1 (i + 1)).

Definition right_pairs (N : Z) : list (Z * Z) :=
  flat_map (fun i => if (i mod 2 =? 1)%Z then column_pairs i else [])
           (range 1 N).

Definition left_pairs (N : Z) : list (Z * Z) :=
  flat_map (fun i => if (i mod 2 =? 1)%Z then [] else row_pairs N i)
           (range 1 N).

(** The pairs in the order the Ryxxy rotations are yielded: [rotations]
    holds the left pairs followed by the right pairs reversed, and is read
    backwards. *)
Definition emission_pairs (N : Z) : list (Z * Z) :=
  right_pairs N ++ rev (left_pairs N).

(** The index pair of an entry of [rotations]. *)
Definition pair_of (op : Z * Z * Q * Q) : Z * Z :=
  (fst (fst (fst op)), snd (fst (fst op))).

(** The qubits an operation acts on. *)
Definition operands {Qid} (op : Operation Qid) : list Qid :=
  match op with On _ qubits => qubits end.

(** The two qubits of [qubits] at the indices of a pair ([d] stands in for a
    missing one). *)
Definition qubit_pair {Qid} (d : Qid) (qubits : list Qid) (ij : Z * Z)
  : list Qid :=
  [nth (Z.to_nat (fst ij)) qubits d; nth (Z.to_nat (snd ij)) qubits d].

(** [cirq.Z(q) ** (numpy.angle(phase) / numpy.pi)] for a qubit and a phase
    (line 141). *)
Definition final_phase {Qid} (angle : complex -> Q) (pi : Q)
    (qp : Qid * complex) : Operation Qid :=
  On (ZPow (angle (snd qp) / pi)%Q) [fst qp].

End GivensSchedule.

(** * Properties *)

(** ** Indexing and generators *)

Lemma py_getitem_app_middle {A} (pre suf : list A) (x : A) :
  py_getitem (pre ++ x :: suf) (Z.of_nat (List.length pre)) = inr x.
Proof.
  unfold py_getitem.
  assert (Hlen : List.length (pre ++ x :: suf)
                 = (List.length pre + S (List.length suf))%nat)
    by (rewrite length_app; reflexivity).
  rewrite Hlen.
  destruct (Z.ltb_spec (Z.of_nat (List.length pre)) 0) as [Hneg | _]; [lia |].
  destruct (Z.leb_spec 0 (Z.of_nat (List.length pre))) as [_ | Hneg]; [| lia].
  destruct (Z.ltb_spec (Z.of_nat (List.length pre))
              (Z.of_nat (List.length pre + S (List.length suf)))) as [_ | Hge];
    [| lia].
  cbn [andb]. rewrite Nat2Z.id, nth_error_app2 by lia.
  rewrite Nat.sub_diag. reflexivity.
Qed.

Lemma py_getitem_in_range {A} (l : list A) (k : Z) (d : A) :
  (0 <= k < Z.of_nat (List.length l))%Z ->
  py_getitem l k = inr (nth (Z.to_nat k) l d).
Proof.
  intros [Hlo Hhi]. unfold py_getitem.
  destruct (Z.ltb_spec k 0) as [Hneg | _]; [lia |].
  destruct (Z.leb_spec 0 k) as [_ | Hneg]; [| lia].
  destruct (Z.ltb_spec k (Z.of_nat (List.length l))) as [_ | Hge]; [| lia].
  cbn [andb].
  destruct (nth_error l (Z.to_nat k)) as [x |] eqn:Hnth.
  - f_equal. symmetry. apply nth_error_nth. exact Hnth.
  - apply nth_error_None in Hnth. lia.
Qed.

Lemma gen_for_getitem_from {A B} (g : Z -> A -> B) (suf pre : list A) :
  gen_for (fun i => match py_getitem (pre ++ suf) i with
                    | inl e => inl e
                    | inr q => inr (g i q)
                    end)
          (map (fun k => (0 + Z.of_nat k)%Z)
               (seq (List.length pre) (List.length suf)))
  = (map (fun p => g (fst p) (snd p))
         (combine (map (fun k => (0 + Z.of_nat k)%Z)
                       (seq (List.length pre) (List.length suf))) suf),
     None).
Proof.
  revert pre. induction suf as [| x suf IH]; intros pre; [reflexivity |].
  cbn [List.length seq map gen_for combine].
  change (0 + Z.of_nat (List.length pre))%Z with (Z.of_nat (List.length pre)).
  rewrite py_getitem_app_middle.
  specialize (IH (pre ++ [x])).
  rewrite <- app_assoc, length_app in IH. cbn [List.length app] in IH.
  rewrite Nat.add_1_r in IH. rewrite IH. reflexivity.
Qed.

(** A loop over [range(len(l))] that reads [l[i]] never raises and visits
    the elements of [l] in order. *)
Lemma gen_for_getitem {A B} (g : Z -> A -> B) (l : list A) :
  gen_for (fun i => match py_getitem l i with
                    | inl e => inl e
                    | inr q => inr (g i q)
                    end)
          (range 0 (Z.of_nat (List.length l)))
  = (map (fun p => g (fst p) (snd p)) (enumerate l), None).
Proof.
  unfold enumerate, range. rewrite Z.sub_0_r, Nat2Z.id.
  exact (gen_for_getitem_from g l []).
Qed.

(** ** linear_swap_network.py *)

Module TrotterFacts.

Import LinearSwapNetwork.

Section Facts.

Variable Qid : Type.
Variable swap_network :
  list Qid -> option (Interaction Qid) -> option bool -> option bool
  -> OpTree Qid.
Variable hamiltonian : Hamiltonian.

(** The layer of one-body potential rotations on the reversed qubits. *)
Lemma potential_layer_reversed (mk : Q -> Qid -> Operation Qid)
    (qubits : list Qid) (time : Q) :
  potential_layer hamiltonian mk (rev qubits) time
    (Z.of_nat (List.length qubits))
  = (map (fun p => Leaf (mk (- real (one_body hamiltonian (fst p) (fst p))
                             * time) (snd p)))
         (enumerate (rev qubits)),
     None).
Proof.
  unfold potential_layer.
  rewrite <- (length_rev qubits).
  exact (gen_for_getitem
           (fun i q => Leaf (mk (- real (one_body hamiltonian i i) * time) q))
           (rev qubits)).
Qed.

(** C3.  A controlled step called without a qubit as [control_qubit]
    raises [TypeError] before yielding anything: the trace of the
    generator is empty and ends with the exception. *)
Theorem controlled_step_without_control_raises
    (qubits : list Qid) (time : Q) (control_qubit : PyObject Qid) :
  isinstance_Qid control_qubit = false ->
  ControlledSymmetric_trotter_step swap_network hamiltonian
    qubits time control_qubit
  = ([], Some (TypeError "Control qudit must be specified.")) /\
  ControlledAsymmetric_trotter_step swap_network hamiltonian
    qubits time control_qubit
  = ([], Some (TypeError "Control qudit must be specified.")).
Proof.
  destruct control_qubit as [| q | tag]; cbn [isinstance_Qid]; intros Hq;
    try discriminate Hq; split; reflexivity.
Qed.

(** C4.  The symmetric step: a swap network whose callback applies
    Rxxyy(0.5 Re(T_pq) t), Ryxxy(0.5 Im(T_pq) t), rot11(-V_pq t) on (a, b);
    then one rz(-Re(T_ii) t) per qubit, on the i-th qubit of the reversed
    order; then a swap network on the reversed qubits with [offset=True]
    whose callback applies the same three rotations in reverse. *)
Theorem symmetric_trotter_step_structure
    (qubits : list Qid) (time : Q) (control_qubit : PyObject Qid) :
  exists forward backward : Interaction Qid,
    Symmetric_trotter_step swap_network hamiltonian qubits time control_qubit
    = ([ swap_network qubits (Some forward) (Some true) None;
         Node (map (fun p =>
                      Leaf (On (rz (- real (one_body hamiltonian (fst p) (fst p))
                                    * time)) [snd p]))
                   (enumerate (rev qubits)));
         swap_network (rev qubits) (Some backward) (Some true) (Some true) ],
       None) /\
    (forall p q a b,
        forward p q a b
        = [ On (Rxxyy ((1 # 2) * real (one_body hamiltonian p q) * time)) [a; b];
            On (Ryxxy ((1 # 2) * imag (one_body hamiltonian p q) * time)) [a; b];
            On (rot11 (- two_body hamiltonian p q * time)) [a; b] ]) /\
    (forall p q a b, backward p q a b = rev (forward p q a b)).
Proof.
  exists (Symmetric_one_and_two_body_interaction hamiltonian time),
         (Symmetric_one_and_two_body_interaction_reverse_order hamiltonian time).
  split; [| split; intros; reflexivity].
  unfold Symmetric_trotter_step, yield_nested.
  rewrite potential_layer_reversed. reflexivity.
Qed.

(** C5.  The asymmetric step: one swap network whose callback applies
    Rxxyy(Re(T_pq) t), Ryxxy(Im(T_pq) t), rot11(-2 V_pq t), then one
    rz(-Re(T_ii) t) per qubit on the reversed order, and nothing else; the
    constant of the Hamiltonian plays no part. *)
Theorem asymmetric_trotter_step_structure
    (qubits : list Qid) (time : Q) (control_qubit : PyObject Qid) :
  (exists forward : Interaction Qid,
      Asymmetric_trotter_step swap_network hamiltonian qubits time control_qubit
      = ([ swap_network qubits (Some forward) (Some true) None;
           Node (map (fun p =>
                        Leaf (On (rz (- real (one_body hamiltonian (fst p) (fst p))
                                      * time)) [snd p]))
                     (enumerate (rev qubits))) ],
         None) /\
      (forall p q a b,
          forward p q a b
          = [ On (Rxxyy (real (one_body hamiltonian p q) * time)) [a; b];
              On (Ryxxy (imag (one_body hamiltonian p q) * time)) [a; b];
              On (rot11 (- (2) * two_body hamiltonian p q * time)) [a; b] ])) /\
  (forall T V c1 c2,
      Asymmetric_trotter_step swap_network (mkHamiltonian T V c1)
        qubits time control_qubit
      = Asymmetric_trotter_step swap_network (mkHamiltonian T V c2)
          qubits time control_qubit).
Proof.
  split.
  - exists (Asymmetric_one_and_two_body_interaction hamiltonian time).
    split; [| intros; reflexivity].
    unfold Asymmetric_trotter_step, yield_nested.
    rewrite potential_layer_reversed. reflexivity.
  - intros. reflexivity.
Qed.

Lemma land_1_odd (n : Z) : negb (Z.land n 1 =? 0)%Z = Z.odd n.
Proof.
  change 1%Z with (Z.ones 1). rewrite Z.land_ones by lia.
  change (2 ^ 1)%Z with 2%Z. rewrite Zmod_odd.
  destruct (Z.odd n); reflexivity.
Qed.

(** C6.  [finish] of the asymmetric and controlled asymmetric steps yields
    one swap network without a callback, with [fermionic=True], when
    [n_steps] is odd and [omit_final_swaps] is false, and nothing
    otherwise. *)
Theorem asymmetric_finish_parity
    (qubits : list Qid) (n_steps : Z) (control_qubit : PyObject Qid)
    (omit_final_swaps : bool) :
  Asymmetric_finish swap_network qubits n_steps control_qubit omit_final_swaps
  = (if Z.odd n_steps && negb omit_final_swaps
     then ([swap_network qubits None (Some true) None], None)
     else ([], None)) /\
  ControlledAsymmetric_finish swap_network qubits n_steps control_qubit
    omit_final_swaps
  = (if Z.odd n_steps && negb omit_final_swaps
     then ([swap_network qubits None (Some true) None], None)
     else ([], None)).
Proof.
  unfold Asymmetric_finish, ControlledAsymmetric_finish, swap_back.
  rewrite land_1_odd.
  destruct (Z.odd n_steps && negb omit_final_swaps); split; reflexivity.
Qed.

Lemma controlled_layer_has_no_rz (c : Qid) (time : Q) (l : list (Z * Qid)) :
  forallb (fun t : OpTree Qid => negb (is_rz_leaf t))
    (map (fun p => Leaf (On (rot11 (- real (one_body hamiltonian (fst p) (fst p))
                                    * time)) [c; snd p])) l) = true.
Proof.
  induction l as [| x l IH]; [reflexivity | exact IH].
Qed.

(** C8.  A controlled step ends with rz(-constant t) on the control qubit;
    it is the only single-qubit Z rotation of the step, the potential
    layer and the callbacks holding none.  The steps without control do
    not depend on the constant of the Hamiltonian. *)
Theorem constant_phase_only_when_controlled
    (qubits : list Qid) (time : Q) (c : Qid) (control_qubit : PyObject Qid) :
  let phase := Leaf (On (rz (- constant hamiltonian * time)) [c]) in
  (exists (forward backward : Interaction Qid) layer,
      ControlledSymmetric_trotter_step swap_network hamiltonian qubits time
        (PyQid c)
      = ([ swap_network qubits (Some forward) (Some true) None;
           Node layer;
           swap_network (rev qubits) (Some backward) (Some true) (Some true);
           phase ], None) /\
      forallb (fun t => negb (is_rz_leaf t)) layer = true /\
      forall p q a b,
        forallb (fun op => negb (is_rz op))
                (forward p q a b ++ backward p q a b) = true) /\
  (exists (forward : Interaction Qid) layer,
      ControlledAsymmetric_trotter_step swap_network hamiltonian qubits time
        (PyQid c)
      = ([ swap_network qubits (Some forward) (Some true) None;
           Node layer;
           phase ], None) /\
      forallb (fun t => negb (is_rz_leaf t)) layer = true /\
      forall p q a b,
        forallb (fun op => negb (is_rz op)) (forward p q a b) = true) /\
  (forall T V c1 c2,
      Symmetric_trotter_step swap_network (mkHamiltonian T V c1)
        qubits time control_qubit
      = Symmetric_trotter_step swap_network (mkHamiltonian T V c2)
          qubits time control_qubit /\
      Asymmetric_trotter_step swap_network (mkHamiltonian T V c1)
        qubits time control_qubit
      = Asymmetric_trotter_step swap_network (mkHamiltonian T V c2)
          qubits time control_qubit).
Proof.
  intros phase. split; [| split].
  - exists (ControlledSymmetric_one_and_two_body_interaction hamiltonian c time),
      (ControlledSymmetric_one_and_two_body_interaction_reverse_order
         hamiltonian c time).
    eexists. split; [| split].
    + unfold ControlledSymmetric_trotter_step, yield_nested.
      rewrite potential_layer_reversed. reflexivity.
    + apply controlled_layer_has_no_rz.
    + intros. reflexivity.
  - exists (ControlledAsymmetric_one_and_two_body_interaction hamiltonian c time).
    eexists. split; [| split].
    + unfold ControlledAsymmetric_trotter_step, yield_nested.
      rewrite potential_layer_reversed. reflexivity.
    + apply controlled_layer_has_no_rz.
    + intros. reflexivity.
  - intros. split; reflexivity.
Qed.

(** C9.  The asymmetric step's permutation reverses the qubits and returns
    [None] as control qubit, whatever was passed; the controlled
    asymmetric one reverses the qubits and returns the control qubit it
    was given. *)
Theorem step_qubit_permutation_control
    (qubits : list Qid) (control_qubit : PyObject Qid) :
  Asymmetric_step_qubit_permutation qubits control_qubit
  = (rev qubits, PyNone Qid) /\
  ControlledAsymmetric_step_qubit_permutation qubits control_qubit
  = (rev qubits, control_qubit).
Proof.
  split; reflexivity.
Qed.

End Facts.

(** The missing-control error on two line qubits, with [None] passed. *)
Lemma controlled_step_without_control_raises_witness :
  isinstance_Qid (PyNone nat) = false /\
  ControlledSymmetric_trotter_step (fun _ _ _ _ => Node [])
    (mkHamiltonian (fun _ _ => mkC 1 0) (fun _ _ => 1) 1)
    [0%nat; 1%nat] 1 (PyNone nat)
  = ([], Some (TypeError "Control qudit must be specified.")) /\
  ControlledAsymmetric_trotter_step (fun _ _ _ _ => Node [])
    (mkHamiltonian (fun _ _ => mkC 1 0) (fun _ _ => 1) 1)
    [0%nat; 1%nat] 1 (PyNone nat)
  = ([], Some (TypeError "Control qudit must be specified.")).
Proof.
  split; [reflexivity |].
  apply (@controlled_step_without_control_raises nat
           (fun _ _ _ _ => Node [])
           (mkHamiltonian (fun _ _ => mkC 1 0) (fun _ _ => 1) 1)
           [0%nat; 1%nat] 1 (PyNone nat)).
  reflexivity.
Defined.

End TrotterFacts.

(** ** optimal_givens_decomposition.py *)

Module GivensFacts.

Import OptimalGivens.

(** *** Tolerances *)

Lemma isclose_zero (x : Q) : isclose x 0 = true <-> Qabs x <= atol.
Proof.
  unfold isclose. rewrite Qle_bool_iff.
  assert (H1 : Qabs (x - 0) == Qabs x)
    by (apply Qabs_wd; unfold Qminus; rewrite Qplus_0_r; reflexivity).
  assert (H2 : atol + rtol * Qabs 0 == atol) by reflexivity.
  rewrite H1, H2. reflexivity.
Qed.

(** The test on moduli behind [Cisclose], over the reals. *)
Lemma square_le (a b : R) :
  (0 <= a -> 0 <= b -> (a * a <= b * b <-> a <= b))%R.
Proof.
  intros Ha Hb. split; intros H.
  - destruct (Rle_dec a b) as [Hle | Hgt]; [exact Hle | exfalso]. Lra.nra.
  - Lra.nra.
Qed.

Lemma affine_modulus_test (X Y t r : R) :
  (0 <= X -> 0 <= Y -> 0 <= t -> 0 <= r ->
   (sqrt X <= t + r * sqrt Y
    <-> X - t * t - r * r * Y <= 0 \/
        (X - t * t - r * r * Y) * (X - t * t - r * r * Y)
        <= 4 * (t * t) * (r * r) * Y))%R.
Proof.
  intros HX HY Ht Hr.
  pose proof (sqrt_pos X) as Hx. pose proof (sqrt_pos Y) as Hy.
  pose proof (sqrt_sqrt X HX) as Hxx. pose proof (sqrt_sqrt Y HY) as Hyy.
  set (x := sqrt X) in *. set (y := sqrt Y) in *.
  rewrite <- Hxx, <- Hyy. clearbody x y. clear Hxx Hyy HX HY X Y.
  assert (Htr : (0 <= t * r)%R) by Lra.nra.
  assert (Hp : (0 <= 2 * t * r * y)%R) by Lra.nra.
  assert (Hs : (0 <= t + r * y)%R) by Lra.nra.
  rewrite <- (square_le Hx Hs).
  set (L := (x * x - t * t - r * r * (y * y))%R).
  replace (4 * (t * t) * (r * r) * (y * y))%R
    with ((2 * t * r * y) * (2 * t * r * y))%R by ring.
  assert (Hiff : (x * x <= (t + r * y) * (t + r * y) <-> L <= 2 * t * r * y)%R)
    by (unfold L; split; intros; Lra.nra).
  rewrite Hiff. split.
  - intros H. destruct (Rle_dec L 0) as [Hl | Hl]; [left; exact Hl | right].
    assert (HL : (0 <= L)%R) by Lra.lra.
    apply (square_le HL Hp). Lra.lra.
  - intros [H | H]; [Lra.lra |].
    destruct (Rle_dec L 0) as [Hl | Hl]; [Lra.lra |].
    assert (HL : (0 <= L)%R) by Lra.lra.
    apply (square_le HL Hp). exact H.
Qed.

Lemma normsq_nonneg (a : complex) : (0 <= Q2R (normsq a))%R.
Proof.
  unfold normsq. rewrite Q2R_plus, !Q2R_mult. Lra.nra.
Qed.

(** [Cisclose a b] is the comparison [|a - b| <= atol + rtol |b|] of
    [numpy.isclose], with the moduli as real square roots. *)
Lemma Cisclose_modulus (a b : complex) :
  Cisclose a b = true <->
  (sqrt (Q2R (normsq (Csub a b)))
   <= Q2R atol + Q2R rtol * sqrt (Q2R (normsq b)))%R.
Proof.
  unfold Cisclose. cbv zeta.
  rewrite Bool.orb_true_iff, !Qle_bool_iff.
  rewrite (@affine_modulus_test (Q2R (normsq (Csub a b))) (Q2R (normsq b))
             (Q2R atol) (Q2R rtol));
    try apply normsq_nonneg;
    try (unfold atol, rtol, Q2R; cbn; Lra.lra).
  assert (H4 : Q2R 4 = 4%R) by (unfold Q2R; cbn; Lra.lra).
  split; intros [H | H]; [left | right | left | right].
  - apply Qle_Rle in H. rewrite !Q2R_minus, !Q2R_mult in H.
    rewrite RMicromega.Q2R_0 in H. exact H.
  - apply Qle_Rle in H.
    rewrite !Q2R_mult, !Q2R_minus, !Q2R_mult, H4 in H. exact H.
  - apply Rle_Qle. rewrite !Q2R_minus, !Q2R_mult, RMicromega.Q2R_0. exact H.
  - apply Rle_Qle. rewrite !Q2R_mult, !Q2R_minus, !Q2R_mult, H4. exact H.
Qed.

(** *** Loops that may raise *)

Lemma fold_exn_error {S A} (P : Exn -> Prop) (f : S -> A -> Exn + S)
    (l : list A) (s : S) (e : Exn) :
  (forall s x e, f s x = inl e -> P e) -> fold_exn f l s = inl e -> P e.
Proof.
  intros Hf. revert s. induction l as [| x l IH]; intros s H; [discriminate H |].
  cbn [fold_exn] in H. destruct (f s x) as [e' | s'] eqn:Hx.
  - inversion H; subst. eapply Hf, Hx.
  - eapply IH, H.
Qed.

Lemma fold_exn_invariant {S A} (P : S -> Prop) (f : S -> A -> Exn + S)
    (l : list A) (s s' : S) :
  (forall s x s', P s -> f s x = inr s' -> P s') ->
  P s -> fold_exn f l s = inr s' -> P s'.
Proof.
  intros Hf. revert s. induction l as [| x l IH]; intros s Hs H.
  - inversion H; subst. exact Hs.
  - cbn [fold_exn] in H. destruct (f s x) as [e | s1] eqn:Hx; [discriminate H |].
    eapply IH; [| exact H]. eapply Hf; eassumption.
Qed.

(** *** Arrays *)

Lemma py_getitem_error {A} (l : list A) (k : Z) (e : Exn) :
  py_getitem l k = inl e -> e = IndexError.
Proof.
  unfold py_getitem.
  destruct (_ && _)%bool; [destruct (nth_error _ _) |];
    intros H; inversion H; reflexivity.
Qed.

Lemma py_getitem_member {A} (l : list A) (k : Z) :
  (0 <= k < Z.of_nat (List.length l))%Z ->
  exists x, py_getitem l k = inr x /\ In x l.
Proof.
  intros [Hlo Hhi]. unfold py_getitem.
  destruct (Z.ltb_spec k 0) as [Hneg | _]; [lia |].
  destruct (Z.leb_spec 0 k) as [_ | Hneg]; [| lia].
  destruct (Z.ltb_spec k (Z.of_nat (List.length l))) as [_ | Hge]; [| lia].
  cbn [andb].
  destruct (nth_error l (Z.to_nat k)) as [x |] eqn:Hnth.
  - exists x. split; [reflexivity |]. eapply nth_error_In, Hnth.
  - apply nth_error_None in Hnth. lia.
Qed.

Lemma getitem2_error (u : ndarray) (r c : Z) (e : Exn) :
  getitem2 u r c = inl e -> e = IndexError.
Proof.
  unfold getitem2, bind. destruct (py_getitem u r) as [e' | line] eqn:Hr.
  - intros H. inversion H; subst. eapply py_getitem_error, Hr.
  - apply py_getitem_error.
Qed.

Lemma getitem2_square (u : ndarray) (r c : Z) :
  square u -> (0 <= r < shape0 u)%Z -> (0 <= c < shape0 u)%Z ->
  exists x, getitem2 u r c = inr x.
Proof.
  intros Hsq Hr Hc. unfold getitem2, bind, shape0 in *.
  destruct (py_getitem_member u Hr) as [line [-> Hin]].
  unfold square in Hsq. rewrite Forall_forall in Hsq.
  destruct (@py_getitem_member _ line c) as [x [Hx _]].
  - rewrite (Hsq line Hin). exact Hc.
  - exists x. exact Hx.
Qed.

Lemma range_length (lo hi : Z) :
  List.length (range lo hi) = Z.to_nat (hi - lo).
Proof.
  unfold range. rewrite length_map, length_seq. reflexivity.
Qed.

Lemma range_bounds (lo hi : Z) :
  Forall (fun k => (lo <= k < hi)%Z) (range lo hi).
Proof.
  unfold range. apply Forall_forall. intros k Hin.
  apply in_map_iff in Hin as [n [<- Hn]]. apply in_seq in Hn. lia.
Qed.

Lemma enumerate_length {A} (l : list A) :
  List.length (enumerate l) = List.length l.
Proof.
  unfold enumerate. rewrite length_combine, range_length. lia.
Qed.

Lemma enumerate_bounds {A} (l : list A) (p : Z * A) :
  In p (enumerate l) -> (0 <= fst p < Z.of_nat (List.length l))%Z.
Proof.
  destruct p as [idx x]. unfold enumerate. intros Hin.
  apply in_combine_l in Hin.
  pose proof (range_bounds 0 (Z.of_nat (List.length l))) as Hb.
  rewrite Forall_forall in Hb. exact (Hb idx Hin).
Qed.

Lemma enumerate_member {A} (l : list A) (p : Z * A) :
  In p (enumerate l) -> In (snd p) l.
Proof.
  destruct p as [idx x]. unfold enumerate. apply in_combine_r.
Qed.

Lemma py_setitem_error {A} (l : list A) (k : Z) (x : A) (e : Exn) :
  py_setitem l k x = inl e -> e = IndexError.
Proof.
  unfold py_setitem. destruct (_ && _)%bool; intros H; inversion H; reflexivity.
Qed.

Lemma py_setitem_in_range {A} (l : list A) (k : Z) (x : A) :
  (0 <= k < Z.of_nat (List.length l))%Z ->
  exists l', py_setitem l k x = inr l' /\
             List.length l' = List.length l /\
             forall y, In y l' -> y = x \/ In y l.
Proof.
  intros [Hlo Hhi]. unfold py_setitem.
  destruct (Z.ltb_spec k 0) as [Hneg | _]; [lia |].
  destruct (Z.leb_spec 0 k) as [_ | Hneg]; [| lia].
  destruct (Z.ltb_spec k (Z.of_nat (List.length l))) as [_ | Hge]; [| lia].
  cbn [andb]. eexists. split; [reflexivity | split].
  - rewrite length_map. apply enumerate_length.
  - intros y Hy. apply in_map_iff in Hy as [p [<- Hp]].
    destruct (fst p =? k)%Z; [left; reflexivity | right].
    apply enumerate_member, Hp.
Qed.

Lemma setitem2_error (u : ndarray) (r c : Z) (v : complex) (e : Exn) :
  setitem2 u r c v = inl e -> e = IndexError.
Proof.
  unfold setitem2, bind. destruct (py_getitem u r) as [e' | line] eqn:Hr.
  - intros H. inversion H; subst. eapply py_getitem_error, Hr.
  - destruct (py_setitem line c v) as [e' | line'] eqn:Hc.
    + intros H. inversion H; subst. eapply py_setitem_error, Hc.
    + apply py_setitem_error.
Qed.

Lemma setitem2_square (u : ndarray) (r c : Z) (v : complex) :
  square u -> (0 <= r < shape0 u)%Z -> (0 <= c < shape0 u)%Z ->
  exists u', setitem2 u r c v = inr u' /\ square u' /\ shape0 u' = shape0 u.
Proof.
  intros Hsq Hr Hc. unfold setitem2, bind, shape0 in *.
  destruct (py_getitem_member u Hr) as [line [-> Hin]].
  pose proof Hsq as Hall. unfold square in Hall. rewrite Forall_forall in Hall.
  destruct (@py_setitem_in_range _ line c v) as [line' [-> [Hlen' _]]].
  { rewrite (Hall line Hin). exact Hc. }
  destruct (@py_setitem_in_range _ u r line') as [u' [-> [Hlen Hmem]]];
    [exact Hr |].
  exists u'. split; [reflexivity | split].
  - unfold square. apply Forall_forall. intros l Hl. rewrite Hlen.
    destruct (Hmem l Hl) as [-> | Hold].
    + rewrite Hlen'. apply Hall, Hin.
    + apply Hall, Hold.
  - rewrite Hlen. reflexivity.
Qed.

Lemma updated_in_place_square (u : ndarray) (entry : Z -> Z -> complex) :
  square u ->
  square (updated_in_place u entry) /\
  shape0 (updated_in_place u entry) = shape0 u.
Proof.
  intros Hsq. unfold square in *. rewrite Forall_forall in Hsq.
  assert (Hlen : List.length (updated_in_place u entry) = List.length u)
    by (unfold updated_in_place; rewrite length_map; apply enumerate_length).
  split; [| unfold shape0; rewrite Hlen; reflexivity].
  apply Forall_forall. intros line Hline. rewrite Hlen.
  unfold updated_in_place in Hline.
  apply in_map_iff in Hline as [p [<- Hp]].
  rewrite length_map, enumerate_length. apply Hsq, enumerate_member, Hp.
Qed.

Lemma diag_square (u : ndarray) :
  square u -> List.length (diag u) = List.length u.
Proof.
  intros Hsq. unfold diag.
  assert (Hgen : forall ks,
             Forall (fun k => (0 <= k < shape0 u)%Z) ks ->
             List.length
               (flat_map (fun k => match getitem2 u k k with
                                   | inr x => [x]
                                   | inl _ => []
                                   end) ks) = List.length ks).
  { induction ks as [| k ks IH]; intros Hks; [reflexivity |].
    inversion Hks as [| ? ? Hk Hks']; subst. cbn [flat_map].
    destruct (getitem2_square Hsq Hk Hk) as [x ->].
    cbn [app List.length]. rewrite (IH Hks'). reflexivity. }
  rewrite Hgen by apply range_bounds.
  rewrite range_length. unfold shape0. lia.
Qed.

Section Facts.

Local Open Scope Z_scope.

Variable Qid : Type.
Variable givens_matrix_elements : complex -> complex -> Side -> Mat2.
Variable givens_rotate : ndarray -> Mat2 -> Z -> Z -> Axis -> Z -> Z -> complex.
Variable arcsin : Q -> Q.
Variable angle : complex -> Q.
Variable pi : Q.

Abbreviation decompose :=
  (optimal_givens_decomposition givens_matrix_elements givens_rotate
     arcsin angle pi).
Abbreviation ordered := (ordered_rotations givens_matrix_elements givens_rotate).
Abbreviation eliminated := (eliminate givens_matrix_elements givens_rotate).
Abbreviation check := (transposition_check givens_matrix_elements).
Abbreviation fails := (fails_check givens_matrix_elements).
Abbreviation recorded := (OptimalGivens.recorded arcsin angle).

(** *** The convention check *)

Lemma check_rotation_eq (acc : list (Z * Z * Q * Q)) (r : Rotation) :
  check_rotation arcsin angle acc r
  = if first_column_close_to_real (fst r)
    then inr (acc ++ [recorded r])
    else inl (GivensMatrixError convention_message).
Proof.
  destruct r as [g [i j]]. unfold check_rotation, first_column_close_to_real.
  cbn [fst snd].
  destruct (isclose (imag (m00 g)) 0); [| reflexivity].
  destruct (isclose (imag (m10 g)) 0); reflexivity.
Qed.

Lemma check_rotations_from (l : list Rotation) (acc : list (Z * Z * Q * Q)) :
  fold_exn (check_rotation arcsin angle) l acc
  = if forallb (fun r => first_column_close_to_real (fst r)) l
    then inr (acc ++ map recorded l)
    else inl (GivensMatrixError convention_message).
Proof.
  revert acc. induction l as [| r l IH]; intros acc.
  - cbn. rewrite app_nil_r. reflexivity.
  - cbn [fold_exn forallb map]. rewrite check_rotation_eq.
    destruct (first_column_close_to_real (fst r)); [| reflexivity].
    cbn [andb]. rewrite IH, <- app_assoc. reflexivity.
Qed.

Lemma check_rotations_eq (l : list Rotation) :
  check_rotations arcsin angle l
  = if forallb (fun r => first_column_close_to_real (fst r)) l
    then inr (map recorded l)
    else inl (GivensMatrixError convention_message).
Proof.
  unfold check_rotations. apply check_rotations_from.
Qed.

Lemma close_to_real_bound (g : Mat2) :
  first_column_close_to_real g = true ->
  (Qabs (imag (m00 g)) <= atol)%Q /\ (Qabs (imag (m10 g)) <= atol)%Q.
Proof.
  unfold first_column_close_to_real. intros H.
  apply andb_true_iff in H as [H0 H1].
  split; apply isclose_zero; assumption.
Qed.


(** *** The elimination schedule *)

Abbreviation elim_by_column :=
  (eliminate_by_column givens_matrix_elements givens_rotate).
Abbreviation elim_by_row :=
  (eliminate_by_row givens_matrix_elements givens_rotate).
Abbreviation elim_step := (eliminate_step givens_matrix_elements givens_rotate).

(** Rotations recorded so far; the array is still [N] x [N] and every
    recorded pair of indices fits it. *)
Abbreviation total s :=
  (List.length (right_rotations s) + List.length (left_rotations s))%nat.
Abbreviation fits N s :=
  (square (unitary s) /\ shape0 (unitary s) = N%Z /\
   Forall (within N%Z) (right_rotations s) /\
   Forall (within N%Z) (left_rotations s)).

Lemma eliminate_by_column_error (N i j : Z) (s : Elimination) (e : Exn) :
  elim_by_column N i s j = inl e -> e = IndexError.
Proof.
  unfold eliminate_by_column, bind.
  destruct (getitem2 (unitary s) (N - j - 1) (i - j - 1)) as [e1 | a] eqn:Ha.
  - intros H. inversion H; subst. eapply getitem2_error, Ha.
  - destruct (getitem2 (unitary s) (N - j - 1) (i - j - 1 + 1))
      as [e2 | b] eqn:Hb; intros H; [| discriminate H].
    inversion H; subst. eapply getitem2_error, Hb.
Qed.

Lemma eliminate_by_row_error (N i j : Z) (s : Elimination) (e : Exn) :
  elim_by_row N i s j = inl e -> e = IndexError.
Proof.
  unfold eliminate_by_row, bind.
  destruct (getitem2 (unitary s) (N + j - i - 1 - 1) (j - 1))
    as [e1 | a] eqn:Ha.
  - intros H. inversion H; subst. eapply getitem2_error, Ha.
  - destruct (getitem2 (unitary s) (N + j - i - 1) (j - 1))
      as [e2 | b] eqn:Hb; intros H; [| discriminate H].
    inversion H; subst. eapply getitem2_error, Hb.
Qed.

(** The elimination loops raise nothing but [IndexError]. *)
Lemma eliminate_error (N : Z) (u : ndarray) (e : Exn) :
  eliminated N u = inl e -> e = IndexError.
Proof.
  unfold eliminate.
  apply (@fold_exn_error _ _ (fun e => e = IndexError)). intros s i e'.
  unfold eliminate_step. destruct (i mod 2 =? 1).
  - apply (@fold_exn_error _ _ (fun e => e = IndexError)).
    intros s' j e''. apply eliminate_by_column_error.
  - apply (@fold_exn_error _ _ (fun e => e = IndexError)).
    intros s' j e''. apply eliminate_by_row_error.
Qed.

Lemma eliminate_by_column_fits (N i j : Z) (s : Elimination) :
  0 <= j < i -> i < N -> fits N s ->
  exists s', elim_by_column N i s j = inr s' /\ fits N s' /\
             total s' = S (total s).
Proof.
  intros Hj Hi [Hsq [Hshape [Hr Hl]]]. unfold eliminate_by_column, bind.
  destruct (@getitem2_square (unitary s) (N - j - 1) (i - j - 1) Hsq)
    as [a ->]; [lia | lia |].
  destruct (@getitem2_square (unitary s) (N - j - 1) (i - j - 1 + 1) Hsq)
    as [b ->]; [lia | lia |].
  eexists. split; [reflexivity |]. cbn [unitary right_rotations left_rotations].
  destruct (updated_in_place_square
              (givens_rotate (unitary s)
                 (mconj (givens_matrix_elements a b left)) (i - j - 1) (i - j) col)
              Hsq) as [Hsq' Hshape'].
  repeat split; try assumption; try lia.
  - apply Forall_app. split; [exact Hr |].
    constructor; [| constructor]. unfold within. cbn [fst snd]. lia.
  - rewrite length_app. cbn [List.length]. lia.
Qed.

Lemma eliminate_by_row_fits (N i j : Z) (s : Elimination) :
  1 <= j <= i -> i < N -> fits N s ->
  exists s', elim_by_row N i s j = inr s' /\ fits N s' /\
             total s' = S (total s).
Proof.
  intros Hj Hi [Hsq [Hshape [Hr Hl]]]. unfold eliminate_by_row, bind.
  destruct (@getitem2_square (unitary s) (N + j - i - 1 - 1) (j - 1) Hsq)
    as [a ->]; [lia | lia |].
  destruct (@getitem2_square (unitary s) (N + j - i - 1) (j - 1) Hsq)
    as [b ->]; [lia | lia |].
  eexists. split; [reflexivity |]. cbn [unitary right_rotations left_rotations].
  destruct (updated_in_place_square
              (givens_rotate (unitary s)
                 (givens_matrix_elements a b right)
                 (N + j - i - 2) (N + j - i - 1) row)
              Hsq) as [Hsq' Hshape'].
  repeat split; try assumption; try lia.
  - apply Forall_app. split; [exact Hl |].
    constructor; [| constructor]. unfold within. cbn [fst snd]. lia.
  - rewrite length_app. cbn [List.length]. lia.
Qed.

(** A loop whose body succeeds on every element and records one rotation
    each time. *)
Lemma fold_fits (N : Z) (f : Elimination -> Z -> Exn + Elimination)
    (P : Z -> Prop) (js : list Z) (s : Elimination) :
  (forall s j, P j -> fits N s ->
               exists s', f s j = inr s' /\ fits N s' /\ total s' = S (total s)) ->
  Forall P js -> fits N s ->
  exists s', fold_exn f js s = inr s' /\ fits N s' /\
             total s' = (total s + List.length js)%nat.
Proof.
  intros Hf. revert s. induction js as [| j js IH]; intros s Hjs Hs.
  - exists s. split; [reflexivity |]. split; [exact Hs | cbn; lia].
  - inversion Hjs as [| ? ? Hj Hjs']; subst. cbn [fold_exn].
    destruct (Hf s j Hj Hs) as [s1 [-> [Hs1 Ht1]]].
    destruct (IH s1 Hjs' Hs1) as [s' [-> [Hs' Ht']]].
    exists s'. split; [reflexivity |]. split; [exact Hs' |].
    rewrite Ht', Ht1. cbn [List.length]. lia.
Qed.

(** One pass of the outer loop records exactly [i] rotations. *)
Lemma eliminate_step_total (N i : Z) (s : Elimination) :
  1 <= i < N -> fits N s ->
  exists s', elim_step N s i = inr s' /\ fits N s' /\
             total s' = (total s + Z.to_nat i)%nat.
Proof.
  intros Hi Hs. unfold eliminate_step. destruct (i mod 2 =? 1).
  - destruct (@fold_fits N (elim_by_column N i) (fun j => 0 <= j < i)
                (range 0 i) s) as [s' [H [Hfit Htot]]];
      [| apply range_bounds | exact Hs |].
    + intros s0 j Hj Hs0. apply eliminate_by_column_fits; [exact Hj | lia | exact Hs0].
    + exists s'. rewrite range_length, Z.sub_0_r in Htot.
      split; [exact H | split; [exact Hfit | exact Htot]].
  - destruct (@fold_fits N (elim_by_row N i) (fun j => 1 <= j <= i)
                (range 1 (i + 1)) s) as [s' [H [Hfit Htot]]];
      [| | exact Hs |].
    + intros s0 j Hj Hs0. apply eliminate_by_row_fits; [exact Hj | lia | exact Hs0].
    + eapply Forall_impl; [| apply range_bounds]. cbn beta. intros; lia.
    + exists s'. rewrite range_length in Htot.
      replace (i + 1 - 1) with i in Htot by lia.
      split; [exact H | split; [exact Hfit | exact Htot]].
Qed.

Lemma eliminate_from (N : Z) (m : nat) (start : Z) (s : Elimination) :
  1 <= start -> ((0 < m)%nat -> start + Z.of_nat m <= N) -> fits N s ->
  exists e,
    fold_exn (elim_step N) (map (fun k => start + Z.of_nat k) (seq 0 m)) s
    = inr e /\
    fits N e /\
    2 * Z.of_nat (total e)
    = 2 * Z.of_nat (total s) + Z.of_nat m * (2 * start + Z.of_nat m - 1).
Proof.
  revert start s. induction m as [| m IH]; intros start s Hstart Hm Hs.
  - exists s. split; [reflexivity |]. split; [exact Hs | lia].
  - cbn [seq map fold_exn]. rewrite <- seq_shift, map_map.
    change (Z.of_nat 0) with 0. rewrite Z.add_0_r.
    destruct (@eliminate_step_total N start s) as [s1 [-> [Hfit Htot]]];
      [lia | exact Hs |].
    rewrite (map_ext (fun k => start + Z.of_nat (S k))
                     (fun k => (start + 1) + Z.of_nat k)) by (intros; lia).
    destruct (IH (start + 1) s1) as [e [-> [Hfit' Htot']]];
      [lia | lia | exact Hfit |].
    exists e. split; [reflexivity |]. split; [exact Hfit' |].
    rewrite Htot', Htot. nia.
Qed.

(** On an [N] x [N] array the two elimination loops raise nothing and record
    [N (N - 1) / 2] rotations in all, each on a pair of indices of the
    array. *)
Lemma eliminate_total (u : ndarray) :
  square u ->
  exists e,
    eliminated (shape0 u) u = inr e /\
    fits (shape0 u) e /\
    Z.of_nat (total e) = shape0 u * (shape0 u - 1) / 2.
Proof.
  intros Hsq. unfold eliminate, range.
  assert (HN : 0 <= shape0 u) by (unfold shape0; lia).
  destruct (@eliminate_from (shape0 u) (Z.to_nat (shape0 u - 1)) 1
              (mkElim u [] [])) as [e [H [Hfit Htot]]];
    [lia | lia | repeat split; try constructor; exact Hsq |].
  exists e. split; [exact H |]. split; [exact Hfit |].
  cbn [right_rotations left_rotations List.length Nat.add] in Htot.
  apply Z.div_unique_exact; [lia |].
  remember (Z.of_nat (Z.to_nat (shape0 u - 1))) as z eqn:Hz.
  assert (Hcases : (shape0 u = 0 /\ z = 0) \/ z = shape0 u - 1) by lia.
  clear Hz. destruct Hcases as [[HN0 Hz0] | Hz1].
  - rewrite Hz0 in Htot. rewrite HN0 at 1. lia.
  - rewrite Hz1 in Htot. lia.
Qed.

(** *** Phase migration *)

Lemma diag_before_error (u0 : ndarray) (r : Rotation) (e : Exn) :
  diag_before u0 r = inl e -> e = IndexError.
Proof.
  unfold diag_before, bind.
  destruct (getitem2 u0 (fst (snd r)) (fst (snd r))) as [e1 | x] eqn:Hx.
  - intros H. inversion H; subst. eapply getitem2_error, Hx.
  - destruct (getitem2 u0 (snd (snd r)) (snd (snd r))) as [e2 | y] eqn:Hy;
      intros H; [| discriminate H].
    inversion H; subst. eapply getitem2_error, Hy.
Qed.

Abbreviation transposition_error :=
  (GivensTranspositionError
     "Failed to shift the phase matrix from right to left").

(** The three ways a pass of the migration loop can end. *)
Lemma migrate_step_spec (s : ndarray * list Rotation) (r : Rotation) :
  match migrate_step givens_matrix_elements s r with
  | inl e =>
      (e = transposition_error /\ fails (fst s) r = true) \/
      (e = IndexError /\ fails (fst s) r = false)
  | inr s' =>
      fails (fst s) r = false /\
      exists d, diag_before (fst s) r = inr d /\
                snd s'
                = snd s ++
                  [(new_rotation givens_matrix_elements
                      (matrix_to_decompose (fst r) d), snd r)]
  end.
Proof.
  unfold migrate_step, fails_check, bind.
  destruct (diag_before (fst s) r) as [e | d] eqn:Hd.
  - right. split; [eapply diag_before_error, Hd | reflexivity].
  - destruct (check (matrix_to_decompose (fst r) d)) eqn:Hc; cbn [negb].
    + destruct (setitem2 (fst s) _ _ _) as [e1 | u1] eqn:H1.
      * right. split; [eapply setitem2_error, H1 | reflexivity].
      * destruct (setitem2 u1 _ _ _) as [e2 | u2] eqn:H2.
        -- right. split; [eapply setitem2_error, H2 | reflexivity].
        -- split; [reflexivity |]. exists d. split; reflexivity.
    + left. split; reflexivity.
Qed.

Lemma migrate_from (l : list Rotation) (s : ndarray * list Rotation) :
  match fold_exn (migrate_step givens_matrix_elements) l s with
  | inl e =>
      (e = transposition_error /\
       Exists (fun p => fails (fst p) (snd p) = true)
              (migration_steps givens_matrix_elements s l)) \/
      (e = IndexError /\
       Forall (fun p => fails (fst p) (snd p) = false)
              (migration_steps givens_matrix_elements s l))
  | inr s' =>
      Forall (fun p => fails (fst p) (snd p) = false /\
                       exists d, diag_before (fst p) (snd p) = inr d)
             (migration_steps givens_matrix_elements s l) /\
      map snd (migration_steps givens_matrix_elements s l) = l /\
      map snd (snd s') = map snd (snd s) ++ map snd l
  end.
Proof.
  revert s. induction l as [| r l IH]; intros s.
  - cbn. rewrite app_nil_r. split; [constructor | split; reflexivity].
  - unfold migration_steps in *. cbn [fold_exn steps_exn map fst snd].
    pose proof (migrate_step_spec s r) as Hstep.
    destruct (migrate_step givens_matrix_elements s r) as [e | s1].
    + destruct Hstep as [[-> Hf] | [-> Hf]].
      * left. split; [reflexivity |]. apply Exists_cons_hd. exact Hf.
      * right. split; [reflexivity |]. constructor; [exact Hf | constructor].
    + destruct Hstep as [Hf [d [Hd Hnew]]]. specialize (IH s1).
      destruct (fold_exn _ l s1) as [e | s'].
      * destruct IH as [[-> Hex] | [-> Hall]].
        -- left. split; [reflexivity |]. apply Exists_cons_tl. exact Hex.
        -- right. split; [reflexivity |]. constructor; [exact Hf | exact Hall].
      * destruct IH as [Hall [Hcov Hidx]]. split; [| split].
        -- constructor; [| exact Hall]. split; [exact Hf |]. exists d. exact Hd.
        -- rewrite Hcov. reflexivity.
        -- rewrite Hidx, Hnew, map_app, <- app_assoc. reflexivity.
Qed.

(** On an [N] x [N] array, with rotations on pairs of its indices, the
    migration reads and writes inside the array. *)
Lemma migrate_step_square (N : Z) (s : ndarray * list Rotation) (r : Rotation) :
  square (fst s) -> shape0 (fst s) = N -> within N r ->
  match migrate_step givens_matrix_elements s r with
  | inl e => e = transposition_error
  | inr s' => square (fst s') /\ shape0 (fst s') = N
  end.
Proof.
  intros Hsq Hshape [Hi Hj]. unfold migrate_step, diag_before, bind.
  rewrite <- Hshape in Hi, Hj.
  destruct (getitem2_square Hsq Hi Hi) as [x ->].
  destruct (getitem2_square Hsq Hj Hj) as [y ->].
  destruct (check (matrix_to_decompose (fst r) (diag2 x y))); cbn [negb];
    [| reflexivity].
  destruct (@setitem2_square (fst s) (fst (snd r)) (fst (snd r))
              (m00 (new_phase_matrix givens_matrix_elements
                      (matrix_to_decompose (fst r) (diag2 x y)))) Hsq Hi Hi)
    as [u1 [-> [Hsq1 Hshape1]]].
  rewrite <- Hshape1 in Hj.
  destruct (@setitem2_square u1 (snd (snd r)) (snd (snd r))
              (m11 (new_phase_matrix givens_matrix_elements
                      (matrix_to_decompose (fst r) (diag2 x y)))) Hsq1 Hj Hj)
    as [u2 [-> [Hsq2 Hshape2]]].
  cbn [fst]. split; [exact Hsq2 | congruence].
Qed.

Lemma migrate_square (N : Z) (l : list Rotation) (s : ndarray * list Rotation) :
  square (fst s) -> shape0 (fst s) = N -> Forall (within N) l ->
  match fold_exn (migrate_step givens_matrix_elements) l s with
  | inl e => e = transposition_error
  | inr s' => square (fst s') /\ shape0 (fst s') = N
  end.
Proof.
  revert s. induction l as [| r l IH]; intros s Hsq Hshape Hl.
  - cbn. split; assumption.
  - inversion Hl as [| ? ? Hr Hl']; subst. cbn [fold_exn].
    pose proof (migrate_step_square s Hsq eq_refl Hr) as Hstep.
    destruct (migrate_step givens_matrix_elements s r) as [e | s1];
      [exact Hstep |].
    destruct Hstep as [Hsq1 Hshape1]. apply IH; assumption.
Qed.

Lemma gen_seq_raised {A} (g k : Generator A) (e : Exn) :
  raised (gen_seq g k) = Some e -> raised g = Some e \/ raised k = Some e.
Proof.
  unfold gen_seq. destruct (raised g) eqn:Hg; intros H.
  - left. rewrite <- H. symmetry. exact Hg.
  - right. exact H.
Qed.

Lemma emit_rotation_raised (qubits : list Qid) (op : Z * Z * Q * Q) (e : Exn) :
  raised (emit_rotation pi qubits op) = Some e -> e = IndexError.
Proof.
  destruct op as [[[i j] theta] phi]. unfold emit_rotation. intros H.
  apply gen_seq_raised in H as [H | H].
  - destruct (negb _); [| discriminate H].
    destruct (py_getitem qubits j) eqn:Hj; [| discriminate H].
    inversion H; subst. eapply py_getitem_error, Hj.
  - destruct (py_getitem qubits i) eqn:Hi.
    + inversion H; subst. eapply py_getitem_error, Hi.
    + destruct (py_getitem qubits j) eqn:Hj; [| discriminate H].
      inversion H; subst. eapply py_getitem_error, Hj.
Qed.

Lemma emit_rotations_raised (qubits : list Qid) (ops : list (Z * Z * Q * Q))
    (e : Exn) :
  raised (emit_rotations pi qubits ops) = Some e -> e = IndexError.
Proof.
  induction ops as [| op ops IH]; [discriminate |].
  cbn [emit_rotations]. intros H. apply gen_seq_raised in H as [H | H].
  - eapply emit_rotation_raised, H.
  - apply IH, H.
Qed.

Lemma gen_for_raised {A B} (f : A -> Exn + B) (l : list A) (e : Exn) :
  raised (gen_for f l) = Some e -> exists x, f x = inl e.
Proof.
  induction l as [| x l IH]; [discriminate |].
  cbn [gen_for]. destruct (f x) eqn:Hx.
  - intros H. inversion H; subst. exists x. exact Hx.
  - exact IH.
Qed.

Lemma emit_phases_raised (qubits : list Qid) (phases : list complex) (e : Exn) :
  raised (emit_phases angle pi qubits phases) = Some e -> e = IndexError.
Proof.
  unfold emit_phases. intros H.
  apply gen_for_raised in H as [[idx phase] H].
  destruct (py_getitem qubits idx) eqn:Hi; [| discriminate H].
  inversion H; subst. eapply py_getitem_error, Hi.
Qed.

Lemma after_migration_no_transposition_error
    (qubits : list Qid) (merged : list Rotation) (phases : list complex)
    (msg : string) :
  raised (match check_rotations arcsin angle merged with
          | inl exn => ([], Some exn)
          | inr rotations =>
              gen_seq (emit_rotations pi qubits (rev rotations))
                      (emit_phases angle pi qubits phases)
          end) <> Some (GivensTranspositionError msg).
Proof.
  rewrite check_rotations_eq.
  destruct (forallb (fun r => first_column_close_to_real (fst r)) merged);
    [| discriminate].
  intros H. apply gen_seq_raised in H as [H | H].
  - apply emit_rotations_raised in H. discriminate H.
  - apply emit_phases_raised in H. discriminate H.
Qed.

(** C7, as the code has it.  On an [N] x [N] array the decomposition raises
    [GivensTranspositionError], with nothing yielded, exactly when one of
    the left rotations the migration loop reaches fails the test of lines
    100-101, in which [new_phase_matrix . new_rotation] is compared with
    [rotation^dagger . diag_before] by [numpy.allclose].  When the error is
    not raised every left rotation is processed and passes this test. *)
Theorem transposition_error_iff_check_fails (qubits : list Qid) (u : ndarray) :
  square u ->
  let steps := processed_left_rotations givens_matrix_elements givens_rotate u in
  ((exists msg, raised (decompose qubits u) = Some (GivensTranspositionError msg))
   <-> Exists (fun p => fails (fst p) (snd p) = true) steps) /\
  (forall msg, raised (decompose qubits u) = Some (GivensTranspositionError msg) ->
               yielded (decompose qubits u) = []) /\
  ((exists msg, raised (decompose qubits u) = Some (GivensTranspositionError msg))
   \/ (exists e,
          eliminated (shape0 u) u = inr e /\
          map snd steps = rev (left_rotations e) /\
          Forall (fun p => fails (fst p) (snd p) = false /\
                           exists d, diag_before (fst p) (snd p) = inr d)
                 steps)) /\
  (forall u0 r d,
      diag_before u0 r = inr d ->
      fails u0 r
      = negb (allclose
                (dot (new_phase_matrix givens_matrix_elements
                        (matrix_to_decompose (fst r) d))
                     (new_rotation givens_matrix_elements
                        (matrix_to_decompose (fst r) d)))
                (dot (T (mconj (fst r))) d))).
Proof.
  intros Hsq steps. subst steps.
  destruct (eliminate_total Hsq) as [e [He [[Hsqe [Hshape [_ Hleft]]] _]]].
  unfold processed_left_rotations, optimal_givens_decomposition,
    ordered_rotations, bind, migrate.
  rewrite He.
  pose proof (migrate_from (rev (left_rotations e)) (unitary e, [])) as Hm.
  pose proof (@migrate_square (shape0 u) (rev (left_rotations e))
                (unitary e, []) Hsqe Hshape (Forall_rev Hleft)) as Hs.
  destruct (fold_exn _ _ _) as [exn | [u' new_left]].
  - subst exn. cbn [raised yielded fst snd].
    destruct Hm as [[_ Hex] | [Habs _]]; [| discriminate Habs].
    split; [| split; [| split]].
    + split; [intros _; exact Hex | intros _; eexists; reflexivity].
    + reflexivity.
    + left. eexists. reflexivity.
    + intros u0 r d Hd. unfold fails_check. rewrite Hd. reflexivity.
  - destruct Hm as [Hall [Hcov _]]. cbn [fst snd].
    split; [| split; [| split]].
    + split.
      * intros [msg H]. exfalso.
        eapply after_migration_no_transposition_error, H.
      * intros Hex. exfalso.
        apply Exists_exists in Hex as [p [Hin Hp]].
        rewrite Forall_forall in Hall. destruct (Hall p Hin) as [Hf _].
        rewrite Hf in Hp. discriminate Hp.
    + intros msg H. exfalso.
      eapply after_migration_no_transposition_error, H.
    + right. exists e. split; [reflexivity |]. split; [exact Hcov | exact Hall].
    + intros u0 r d Hd. unfold fails_check. rewrite Hd. reflexivity.
Qed.

(** *** From rotations to operations *)

Lemma within_by_index (N : Z) (l l' : list Rotation) :
  map snd l = map snd l' -> Forall (within N) l' -> Forall (within N) l.
Proof.
  revert l'. induction l as [| r l IH]; intros l' Hmap Hall; [constructor |].
  destruct l' as [| r' l']; [discriminate Hmap |].
  cbn [map] in Hmap. inversion Hmap as [[Hr Hl]].
  inversion Hall as [| ? ? Hr' Hl']; subst.
  constructor; [| eapply IH; eassumption].
  unfold within in *. rewrite Hr. exact Hr'.
Qed.

Lemma merged_within (N : Z) (new_left right : list Rotation) :
  Forall (within N) new_left -> Forall (within N) right ->
  Forall (within N) (merged_rotations new_left right).
Proof.
  intros Hl Hr. unfold merged_rotations. apply Forall_app. split.
  - apply Forall_rev. exact Hl.
  - apply Forall_map. apply Forall_rev.
    eapply Forall_impl; [| exact Hr]. intros r H. exact H.
Qed.

Lemma merged_length (new_left right : list Rotation) :
  List.length (merged_rotations new_left right)
  = (List.length new_left + List.length right)%nat.
Proof.
  unfold merged_rotations.
  rewrite length_app, length_map, !length_rev. reflexivity.
Qed.

Lemma emit_rotations_in_range (d : Qid) (qubits : list Qid)
    (rotations : list Rotation) :
  Forall (within (Z.of_nat (List.length qubits))) rotations ->
  emit_rotations pi qubits (map recorded rotations)
  = (flat_map (rotation_ops pi d qubits) (map recorded rotations), None).
Proof.
  induction rotations as [| r rotations IH]; intros Hall; [reflexivity |].
  inversion Hall as [| ? ? [Hi Hj] Hall']; subst.
  cbn [map emit_rotations flat_map]. rewrite (IH Hall').
  destruct r as [g [i j]]. cbn [fst snd] in Hi, Hj.
  unfold OptimalGivens.recorded, emit_rotation, rotation_ops. cbn [fst snd].
  rewrite (py_getitem_in_range qubits d Hi), (py_getitem_in_range qubits d Hj).
  destruct (isclose (angle (m11 g)) 0); reflexivity.
Qed.

Lemma gen_for_total {A B} (f : A -> Exn + B) (g : A -> B) (l : list A) :
  (forall x, In x l -> f x = inr (g x)) -> gen_for f l = (map g l, None).
Proof.
  induction l as [| x l IH]; intros H; [reflexivity |].
  cbn [gen_for map]. rewrite (H x (or_introl eq_refl)), IH.
  - reflexivity.
  - intros y Hy. apply H. right. exact Hy.
Qed.

Lemma emit_phases_in_range (d : Qid) (qubits : list Qid) (phases : list complex) :
  (List.length phases <= List.length qubits)%nat ->
  emit_phases angle pi qubits phases
  = (map (phase_op angle pi d qubits) (enumerate phases), None).
Proof.
  intros Hlen. unfold emit_phases. apply gen_for_total.
  intros [idx phase] Hin. apply enumerate_bounds in Hin. cbn [fst] in Hin.
  rewrite (py_getitem_in_range qubits d) by lia. reflexivity.
Qed.

Lemma count_Ryxxy (d : Qid) (qubits : list Qid) (rotations : list (Z * Z * Q * Q))
    (phases : list (Z * complex)) :
  List.length (filter is_Ryxxy
                 (flat_map (rotation_ops pi d qubits) rotations
                  ++ map (phase_op angle pi d qubits) phases))
  = List.length rotations.
Proof.
  induction rotations as [| [[[i j] theta] phi] rotations IH].
  - cbn [flat_map app List.length].
    induction phases as [| p phases IHp]; [reflexivity | exact IHp].
  - cbn [flat_map List.length]. rewrite <- app_assoc, filter_app, length_app, IH.
    unfold rotation_ops. destruct (isclose phi 0); reflexivity.
Qed.

(** What the decomposition of an [N] x [N] array on [N] qubits does. *)
Lemma decompose_structure (qubits : list Qid) (u : ndarray) (d : Qid) :
  square u -> Z.of_nat (List.length qubits) = shape0 u ->
  (exists msg, decompose qubits u = ([], Some (GivensTranspositionError msg))) \/
  (exists msg, decompose qubits u = ([], Some (GivensMatrixError msg))) \/
  (exists rotations phases,
      decompose qubits u
      = (flat_map (rotation_ops pi d qubits) rotations
         ++ map (phase_op angle pi d qubits) (enumerate phases), None) /\
      Z.of_nat (List.length rotations) = shape0 u * (shape0 u - 1) / 2 /\
      Z.of_nat (List.length phases) = shape0 u).
Proof.
  intros Hsq Hlen.
  destruct (eliminate_total Hsq) as [e [He [[Hsqe [Hshape [Hright Hleft]]] Htot]]].
  unfold optimal_givens_decomposition, ordered_rotations, bind, migrate.
  rewrite He.
  pose proof (migrate_from (rev (left_rotations e)) (unitary e, [])) as Hm.
  pose proof (@migrate_square (shape0 u) (rev (left_rotations e))
                (unitary e, []) Hsqe Hshape (Forall_rev Hleft)) as Hs.
  destruct (fold_exn _ _ _) as [exn | [u' new_left]].
  - left. subst exn. eexists. reflexivity.
  - destruct Hm as [_ [_ Hidx]]. destruct Hs as [Hsq' Hshape'].
    cbn [fst snd map app] in *.
    rewrite check_rotations_eq.
    destruct (forallb _ _); [| right; left; eexists; reflexivity].
    right; right.
    assert (Hnew : Forall (within (shape0 u)) new_left).
    { eapply within_by_index; [exact Hidx |]. apply Forall_rev. exact Hleft. }
    assert (Hmerged : Forall (within (Z.of_nat (List.length qubits)))
                        (rev (merged_rotations new_left (right_rotations e)))).
    { rewrite Hlen. apply Forall_rev, merged_within; assumption. }
    exists (map recorded (rev (merged_rotations new_left (right_rotations e)))),
      (diag u').
    rewrite <- map_rev, (@emit_rotations_in_range d qubits _ Hmerged).
    rewrite (@emit_phases_in_range d qubits).
    + split; [reflexivity |]. split.
      * rewrite length_map, length_rev, merged_length, <- Htot.
        apply (f_equal (@List.length _)) in Hidx.
        rewrite !length_map, length_rev in Hidx. unfold Rotation in *.
        rewrite Hidx. lia.
      * rewrite (diag_square Hsq'). exact Hshape'.
    + rewrite (diag_square Hsq'). unfold shape0 in *. lia.
Qed.

(** *** No error when the helper keeps its contract *)

Lemma Cisclose_of_Ceq (a b : complex) : Ceq a b -> Cisclose a b = true.
Proof.
  intros [Hre Him]. unfold Cisclose. apply orb_true_iff. left.
  apply Qle_bool_iff. unfold normsq, Csub. cbn [real imag].
  generalize atol rtol. intros t r.
  setoid_replace (real a - real b)%Q with 0%Q by (rewrite Hre; ring).
  setoid_replace (imag a - imag b)%Q with 0%Q by (rewrite Him; ring).
  Lqa.nra.
Qed.

Lemma allclose_of_Meq (a b : Mat2) : Meq a b -> allclose a b = true.
Proof.
  intros [H00 [H01 [H10 H11]]]. unfold allclose.
  rewrite !Cisclose_of_Ceq by assumption. reflexivity.
Qed.

Lemma combine4 (x y z w e1 e2 e3 e4 k1 k2 k3 k4 lhs rhs : Q) :
  (e1 == k1 -> e2 == k2 -> e3 == k3 -> e4 == k4 ->
   lhs == x * e1 + y * e2 + z * e3 + w * e4 ->
   x * k1 + y * k2 + z * k3 + w * k4 == rhs ->
   lhs == rhs)%Q.
Proof.
  intros H1 H2 H3 H4 Hl Hr. rewrite Hl, H1, H2, H3, H4. exact Hr.
Qed.

(** [(m . g^T) . conj(g)] is [m] again when [g^T . conj(g)] is the
    identity. *)
Lemma dot_cancel (m g : Mat2) :
  Meq (dot (T g) (mconj g)) identity2 -> Meq (dot (dot m (T g)) (mconj g)) m.
Proof.
  unfold Meq, Ceq, dot, T, mconj, identity2, diag2, RtoC, Cadd, Cmul, Cconj.
  cbn [m00 m01 m10 m11 real imag].
  intros [[A1 A2] [[B1 B2] [[C1 C2] [D1 D2]]]].
  repeat split.
  - eapply (@combine4 (real (m00 m)) (- imag (m00 m))%Q (real (m01 m))
              (- imag (m01 m))%Q _ _ _ _ _ _ _ _ _ _ A1 A2 C1 C2); ring.
  - eapply (@combine4 (imag (m00 m)) (real (m00 m)) (imag (m01 m))
              (real (m01 m)) _ _ _ _ _ _ _ _ _ _ A1 A2 C1 C2); ring.
  - eapply (@combine4 (real (m00 m)) (- imag (m00 m))%Q (real (m01 m))
              (- imag (m01 m))%Q _ _ _ _ _ _ _ _ _ _ B1 B2 D1 D2); ring.
  - eapply (@combine4 (imag (m00 m)) (real (m00 m)) (imag (m01 m))
              (real (m01 m)) _ _ _ _ _ _ _ _ _ _ B1 B2 D1 D2); ring.
  - eapply (@combine4 (real (m10 m)) (- imag (m10 m))%Q (real (m11 m))
              (- imag (m11 m))%Q _ _ _ _ _ _ _ _ _ _ A1 A2 C1 C2); ring.
  - eapply (@combine4 (imag (m10 m)) (real (m10 m)) (imag (m11 m))
              (real (m11 m)) _ _ _ _ _ _ _ _ _ _ A1 A2 C1 C2); ring.
  - eapply (@combine4 (real (m10 m)) (- imag (m10 m))%Q (real (m11 m))
              (- imag (m11 m))%Q _ _ _ _ _ _ _ _ _ _ B1 B2 D1 D2); ring.
  - eapply (@combine4 (imag (m10 m)) (real (m10 m)) (imag (m11 m))
              (real (m11 m)) _ _ _ _ _ _ _ _ _ _ B1 B2 D1 D2); ring.
Qed.

Lemma check_passes (m : Mat2) :
  left_contract givens_matrix_elements -> check m = true.
Proof.
  intros Hc. unfold transposition_check, new_phase_matrix, new_givens_matrix.
  apply allclose_of_Meq, dot_cancel. apply (Hc (m10 m) (m11 m)).
Qed.

Lemma conjugate_close_to_real (a b : complex) :
  left_contract givens_matrix_elements ->
  first_column_close_to_real (mconj (givens_matrix_elements a b left)) = true.
Proof.
  intros Hc. destruct (Hc a b) as [H0 [H1 _]].
  unfold first_column_close_to_real, mconj, Cconj. cbn [m00 m10 imag].
  apply andb_true_iff.
  split; apply isclose_zero;
    [rewrite H0 | rewrite H1]; unfold atol; cbn; discriminate.
Qed.

(** Every right rotation is recorded as the transpose of a helper result. *)
Lemma eliminate_right_rotations (N : Z) (u : ndarray) (e : Elimination) :
  left_contract givens_matrix_elements ->
  eliminated N u = inr e ->
  Forall (fun r => first_column_close_to_real (T (mconj (fst r))) = true)
         (right_rotations e).
Proof.
  intros Hc. unfold eliminate.
  apply (@fold_exn_invariant _ _
           (fun s => Forall (fun r => first_column_close_to_real
                                        (T (mconj (fst r))) = true)
                            (right_rotations s))); [| constructor].
  intros s i s' Hs. unfold eliminate_step. destruct (i mod 2 =? 1).
  - apply (@fold_exn_invariant _ _
             (fun s => Forall (fun r => first_column_close_to_real
                                          (T (mconj (fst r))) = true)
                              (right_rotations s))); [| exact Hs].
    intros s1 j s2 Hs1. unfold eliminate_by_column, bind.
    destruct (getitem2 (unitary s1) (N - j - 1) (i - j - 1)) as [e1 | a];
      [discriminate |].
    destruct (getitem2 (unitary s1) (N - j - 1) (i - j - 1 + 1)) as [e2 | b];
      [discriminate |].
    intros H. inversion H; subst. cbn [right_rotations].
    apply Forall_app. split; [exact Hs1 |]. constructor; [| constructor].
    cbn [fst]. apply (conjugate_close_to_real _ _ Hc).
  - apply (@fold_exn_invariant _ _
             (fun s => Forall (fun r => first_column_close_to_real
                                          (T (mconj (fst r))) = true)
                              (right_rotations s))); [| exact Hs].
    intros s1 j s2 Hs1. unfold eliminate_by_row, bind.
    destruct (getitem2 (unitary s1) (N + j - i - 1 - 1) (j - 1)) as [e1 | a];
      [discriminate |].
    destruct (getitem2 (unitary s1) (N + j - i - 1) (j - 1)) as [e2 | b];
      [discriminate |].
    intros H. inversion H; subst. exact Hs1.
Qed.

Lemma migrate_under_contract (l : list Rotation) (s s' : ndarray * list Rotation) :
  left_contract givens_matrix_elements ->
  Forall (fun r => first_column_close_to_real (fst r) = true) (snd s) ->
  fold_exn (migrate_step givens_matrix_elements) l s = inr s' ->
  Forall (fun r => first_column_close_to_real (fst r) = true) (snd s').
Proof.
  intros Hc Hs.
  apply (@fold_exn_invariant _ _
           (fun s => Forall (fun r => first_column_close_to_real (fst r) = true)
                            (snd s))); [| exact Hs].
  intros s1 r s2 Hs1 Hstep.
  pose proof (migrate_step_spec s1 r) as Hspec. rewrite Hstep in Hspec.
  destruct Hspec as [_ [d [_ Hnew]]]. cbn beta. unfold Rotation in *.
  rewrite Hnew.
  apply Forall_app. split; [exact Hs1 |]. constructor; [| constructor].
  cbn [fst]. apply (conjugate_close_to_real _ _ Hc).
Qed.

Lemma migrate_error_under_contract (l : list Rotation)
    (s : ndarray * list Rotation) (e : Exn) :
  left_contract givens_matrix_elements ->
  fold_exn (migrate_step givens_matrix_elements) l s = inl e -> e = IndexError.
Proof.
  intros Hc. apply (@fold_exn_error _ _ (fun e => e = IndexError)).
  intros s1 r e1 Hstep.
  pose proof (migrate_step_spec s1 r) as Hspec. rewrite Hstep in Hspec.
  destruct Hspec as [[_ Hf] | [-> _]]; [| reflexivity].
  unfold fails_check in Hf. destruct (diag_before (fst s1) r); [discriminate Hf |].
  rewrite (check_passes _ Hc) in Hf. discriminate Hf.
Qed.

Lemma merged_close_to_real (new_left right : list Rotation) :
  Forall (fun r => first_column_close_to_real (fst r) = true) new_left ->
  Forall (fun r => first_column_close_to_real (T (mconj (fst r))) = true) right ->
  forallb (fun r => first_column_close_to_real (fst r))
          (merged_rotations new_left right) = true.
Proof.
  intros Hl Hr. apply forallb_forall. intros r Hin.
  unfold merged_rotations in Hin. apply in_app_or in Hin as [Hin | Hin].
  - apply in_rev in Hin. rewrite Forall_forall in Hl. exact (Hl r Hin).
  - apply in_map_iff in Hin as [r' [<- Hin]]. apply in_rev in Hin.
    rewrite Forall_forall in Hr. exact (Hr r' Hin).
Qed.

Lemma raised_under_contract (qubits : list Qid) (u : ndarray) (e : Exn) :
  left_contract givens_matrix_elements ->
  raised (decompose qubits u) = Some e -> e = IndexError.
Proof.
  intros Hc. unfold optimal_givens_decomposition, ordered_rotations, bind, migrate.
  destruct (eliminated (shape0 u) u) as [e0 | el] eqn:He.
  - intros H. inversion H; subst. eapply eliminate_error, He.
  - destruct (fold_exn _ _ _) as [e1 | [u' new_left]] eqn:Hm.
    + intros H. inversion H; subst.
      eapply migrate_error_under_contract; eassumption.
    + cbn [fst snd].
      rewrite check_rotations_eq, merged_close_to_real.
      * intros H. apply gen_seq_raised in H as [H | H].
        -- eapply emit_rotations_raised, H.
        -- eapply emit_phases_raised, H.
      * apply (migrate_under_contract _ (unitary el, []) Hc (Forall_nil _) Hm).
      * eapply eliminate_right_rotations; eassumption.
Qed.

Lemma no_error_under_contract (qubits : list Qid) (u : ndarray) :
  square u -> Z.of_nat (List.length qubits) = shape0 u ->
  left_contract givens_matrix_elements ->
  raised (decompose qubits u) = None.
Proof.
  intros Hsq Hlen Hc. destruct qubits as [| d qubits].
  - destruct u as [| line u]; [reflexivity | discriminate Hlen].
  - destruct (decompose_structure (d :: qubits) d Hsq Hlen)
      as [[msg H] | [[msg H] | [rotations [phases [H _]]]]].
    + assert (Habs : GivensTranspositionError msg = IndexError)
        by (apply (@raised_under_contract (d :: qubits) u _ Hc);
            rewrite H; reflexivity).
      discriminate Habs.
    + assert (Habs : GivensMatrixError msg = IndexError)
        by (apply (@raised_under_contract (d :: qubits) u _ Hc);
            rewrite H; reflexivity).
      discriminate Habs.
    + rewrite H. reflexivity.
Qed.


End Facts.

(** *** Runs on concrete matrices *)

Import GivensRotations.

Abbreviation merged_of u :=
  (ordered_rotations GivensRotations.givens_matrix_elements
     GivensRotations.givens_rotate u).
Abbreviation steps_of u :=
  (processed_left_rotations GivensRotations.givens_matrix_elements
     GivensRotations.givens_rotate u).

Example example_matrices_are_unitary :
  is_unitary complex_unitary = true /\ is_unitary real_rotation = true.
Proof.
  split; vm_compute; reflexivity.
Qed.

Example example_matrices_are_square :
  square complex_unitary /\ square real_rotation.
Proof.
  split; repeat constructor.
Qed.

(** A helper that returns [i] times the identity, a unitary matrix whose
    first column is not real, makes the decomposition raise
    [GivensMatrixError]; one that returns twice the identity, which is not
    unitary, makes it raise [GivensTranspositionError]. *)
Example internal_errors_are_raised :
  optimal_givens_decomposition
    (fun _ _ _ => mkMat2 (mkC 0 1) (RtoC 0) (RtoC 0) (mkC 0 1))
    GivensRotations.givens_rotate arcsin_stub angle_stub pi_stub
    [10; 11]%nat real_rotation
  = ([], Some (GivensMatrixError convention_message)) /\
  optimal_givens_decomposition
    (fun _ _ _ => mkMat2 (RtoC 2) (RtoC 0) (RtoC 0) (RtoC 2))
    GivensRotations.givens_rotate arcsin_stub angle_stub pi_stub
    [10; 11; 12]%nat complex_unitary
  = ([], Some (GivensTranspositionError
                 "Failed to shift the phase matrix from right to left")).
Proof.
  split; vm_compute; reflexivity.
Qed.



(** C7, as stated, fails on a unitary matrix with a complex column: for the
    left rotation on rows 0 and 1 the test of the code holds exactly,
    [new_phase_matrix . new_rotation = rotation^dagger . diag_before], and no
    error is raised, while [new_rotation^{-1} . new_diag] and
    [diag_before . rotation] differ, compared either way round. *)
Lemma transposition_identity_counterexample :
  is_unitary complex_unitary = true /\
  raised (decompose [10; 11; 12]%nat complex_unitary) = None /\
  existsb (fun p =>
             let rotation := fst (snd p) in
             let gme := GivensRotations.givens_matrix_elements in
             match diag_before (fst p) (snd p) with
             | inl _ => false
             | inr d =>
                 let m := matrix_to_decompose rotation d in
                 is_unitary2 rotation && is_unitary2 (new_rotation gme m) &&
                 Meqb (new_phase_matrix gme m) (new_diag gme m) &&
                 Meqb (dot (new_phase_matrix gme m) (new_rotation gme m))
                      (dot (T (mconj rotation)) d) &&
                 transposition_check gme m &&
                 negb (spec_identity gme rotation d) &&
                 negb (spec_identity_sym gme rotation d)
             end)
          (steps_of complex_unitary) = true.
Proof.
  vm_compute. repeat split.
Qed.

Lemma transposition_error_iff_check_fails_witness :
  square complex_unitary /\
  ((exists msg,
       raised (decompose [10; 11; 12]%nat complex_unitary)
       = Some (GivensTranspositionError msg))
   <-> Exists (fun p =>
                 fails_check GivensRotations.givens_matrix_elements
                   (fst p) (snd p) = true)
              (steps_of complex_unitary)).
Proof.
  split; [repeat constructor |].
  apply (@transposition_error_iff_check_fails nat
           GivensRotations.givens_matrix_elements
           GivensRotations.givens_rotate arcsin_stub angle_stub pi_stub
           [10; 11; 12]%nat complex_unitary).
  repeat constructor.
Defined.


End GivensFacts.

(** ** Further properties of linear_swap_network.py *)

Module TrotterExtras.

Import LinearSwapNetwork TrotterRelations.

Lemma enumerate_cons {A} (x : A) (l : list A) :
  enumerate (x :: l)
  = (0%Z, x) :: map (fun p => (fst p + 1, snd p)%Z) (enumerate l).
Proof.
  unfold enumerate, range. cbn [List.length].
  rewrite !Z.sub_0_r, !Nat2Z.id. cbn [seq map combine]. f_equal.
  rewrite <- seq_shift, map_map.
  generalize (seq 0 (List.length l)). intros ks. revert l.
  induction ks as [| k ks IH]; intros [| y l]; cbn [map combine];
    try reflexivity.
  rewrite IH. f_equal. simpl fst. simpl snd. f_equal. lia.
Qed.

Lemma enumerate_snoc {A} (l : list A) (x : A) :
  enumerate (l ++ [x]) = enumerate l ++ [(Z.of_nat (List.length l), x)].
Proof.
  induction l as [| y l IH].
  - reflexivity.
  - cbn [app]. rewrite !enumerate_cons, IH, map_app.
    cbn [map fst snd List.length app]. rewrite Nat2Z.inj_succ. reflexivity.
Qed.

(** Positions in the reversed list, read from the original one. *)
Lemma enumerate_rev {A} (l : list A) :
  enumerate (rev l)
  = map (fun p => (Z.of_nat (List.length l) - 1 - fst p, snd p)%Z)
        (rev (enumerate l)).
Proof.
  induction l as [| x l IH]; [reflexivity |].
  cbn [rev]. rewrite enumerate_snoc, IH, enumerate_cons. cbn [rev].
  rewrite map_app, length_rev. cbn [map fst snd].
  rewrite <- map_rev, map_map. f_equal.
  - apply map_ext. intros p. cbn [fst snd List.length]. f_equal. lia.
  - cbn [List.length]. do 2 f_equal. lia.
Qed.

Section Facts.

Variable Qid : Type.
Variable swap_network :
  list Qid -> option (Interaction Qid) -> option bool -> option bool
  -> OpTree Qid.
Variable hamiltonian : Hamiltonian.

(** X1.  A controlled step is the uncontrolled step with every operation of
    the two callbacks and of the potential layer replaced by its controlled
    counterpart on the control qubit, followed by the phase of the constant
    term. *)
Theorem controlled_step_is_lifted_step
    (qubits : list Qid) (time : Q) (c : Qid) (control_qubit : PyObject Qid) :
  (exists forward backward layer,
      Symmetric_trotter_step swap_network hamiltonian qubits time control_qubit
      = ([ swap_network qubits (Some forward) (Some true) None;
           Node layer;
           swap_network (rev qubits) (Some backward) (Some true) (Some true) ],
         None) /\
      ControlledSymmetric_trotter_step swap_network hamiltonian qubits time
        (PyQid c)
      = ([ swap_network qubits (Some (controlled_interaction c forward))
             (Some true) None;
           Node (map (controlled_leaf c) layer);
           swap_network (rev qubits) (Some (controlled_interaction c backward))
             (Some true) (Some true);
           Leaf (On (rz (- constant hamiltonian * time)) [c]) ],
         None)) /\
  (exists forward layer,
      Asymmetric_trotter_step swap_network hamiltonian qubits time control_qubit
      = ([ swap_network qubits (Some forward) (Some true) None; Node layer ],
         None) /\
      ControlledAsymmetric_trotter_step swap_network hamiltonian qubits time
        (PyQid c)
      = ([ swap_network qubits (Some (controlled_interaction c forward))
             (Some true) None;
           Node (map (controlled_leaf c) layer);
           Leaf (On (rz (- constant hamiltonian * time)) [c]) ],
         None)).
Proof.
  split.
  - exists (Symmetric_one_and_two_body_interaction hamiltonian time),
      (Symmetric_one_and_two_body_interaction_reverse_order hamiltonian time),
      (map (fun p => Leaf (On (rz (- real (one_body hamiltonian (fst p) (fst p))
                                   * time)) [snd p]))
           (enumerate (rev qubits))).
    split.
    + unfold Symmetric_trotter_step, yield_nested.
      rewrite TrotterFacts.potential_layer_reversed. reflexivity.
    + unfold ControlledSymmetric_trotter_step, yield_nested.
      rewrite TrotterFacts.potential_layer_reversed, map_map. reflexivity.
  - exists (Asymmetric_one_and_two_body_interaction hamiltonian time),
      (map (fun p => Leaf (On (rz (- real (one_body hamiltonian (fst p) (fst p))
                                   * time)) [snd p]))
           (enumerate (rev qubits))).
    split.
    + unfold Asymmetric_trotter_step, yield_nested.
      rewrite TrotterFacts.potential_layer_reversed. reflexivity.
    + unfold ControlledAsymmetric_trotter_step, yield_nested.
      rewrite TrotterFacts.potential_layer_reversed, map_map. reflexivity.
Qed.

Ltac same_operations :=
  repeat constructor; cbn; unfold half; try reflexivity; ring.


Lemma odd_of_nat (n : nat) : Z.odd (Z.of_nat n) = Nat.odd n.
Proof.
  induction n as [| n IH]; [reflexivity |].
  rewrite Nat2Z.inj_succ, Z.odd_succ, Nat.odd_succ.
  rewrite <- Z.negb_odd, <- Nat.negb_odd, IH. reflexivity.
Qed.

(** X3.  After [n] asymmetric steps the qubits are in their original order
    when [n] is even and reversed when [n] is odd; the controlled variant
    carries the control qubit through every step, the uncontrolled one
    returns no control qubit from the first step on.  [finish] yields its
    swap network exactly for the step counts that leave the qubits
    reversed, unless the final swaps are omitted. *)
Theorem qubit_order_after_steps
    (n : nat) (qubits finish_qubits : list Qid)
    (control_qubit : PyObject Qid) (omit_final_swaps : bool) :
  after_steps (@Asymmetric_step_qubit_permutation Qid) n qubits control_qubit
  = (if Nat.odd n then rev qubits else qubits,
     match n with O => control_qubit | S _ => PyNone Qid end) /\
  after_steps (@ControlledAsymmetric_step_qubit_permutation Qid) n qubits
    control_qubit
  = (if Nat.odd n then rev qubits else qubits, control_qubit) /\
  (yielded (Asymmetric_finish swap_network finish_qubits (Z.of_nat n)
              control_qubit omit_final_swaps) = []
   <-> Nat.odd n = false \/ omit_final_swaps = true) /\
  (yielded (ControlledAsymmetric_finish swap_network finish_qubits (Z.of_nat n)
              control_qubit omit_final_swaps) = []
   <-> Nat.odd n = false \/ omit_final_swaps = true).
Proof.
  split; [| split; [| split]].
  - unfold after_steps. induction n as [| n IH]; [reflexivity |].
    rewrite Nat.iter_succ, IH. unfold Asymmetric_step_qubit_permutation.
    cbn [fst snd]. rewrite Nat.odd_succ, <- Nat.negb_odd.
    destruct (Nat.odd n); cbn [negb]; [rewrite rev_involutive |]; reflexivity.
  - unfold after_steps. induction n as [| n IH]; [reflexivity |].
    rewrite Nat.iter_succ, IH.
    unfold ControlledAsymmetric_step_qubit_permutation.
    cbn [fst snd]. rewrite Nat.odd_succ, <- Nat.negb_odd.
    destruct (Nat.odd n); cbn [negb]; [rewrite rev_involutive |]; reflexivity.
  - unfold Asymmetric_finish, swap_back.
    rewrite TrotterFacts.land_1_odd, odd_of_nat.
    destruct (Nat.odd n), omit_final_swaps; cbn; split; intros H;
      try reflexivity; try discriminate H; auto;
      destruct H as [H | H]; discriminate H.
  - unfold ControlledAsymmetric_finish, swap_back.
    rewrite TrotterFacts.land_1_odd, odd_of_nat.
    destruct (Nat.odd n), omit_final_swaps; cbn; split; intros H;
      try reflexivity; try discriminate H; auto;
      destruct H as [H | H]; discriminate H.
Qed.

(** X4.  In terms of the order the qubits are passed in, the potential
    layer of the symmetric and asymmetric steps gives every qubit exactly
    one rz, last qubit first, and the qubit at position [k] of [N] gets the
    coefficient [one_body[N - 1 - k, N - 1 - k]]. *)
Theorem potential_layer_in_input_order
    (qubits : list Qid) (time : Q) (control_qubit : PyObject Qid) :
  let N := Z.of_nat (List.length qubits) in
  let layer :=
    rev (map (fun p =>
                Leaf (On (rz (- real (one_body hamiltonian
                                        (N - 1 - fst p) (N - 1 - fst p))%Z
                              * time)) [snd p]))
             (enumerate qubits)) in
  (exists forward backward,
      Symmetric_trotter_step swap_network hamiltonian qubits time control_qubit
      = ([ swap_network qubits (Some forward) (Some true) None;
           Node layer;
           swap_network (rev qubits) (Some backward) (Some true) (Some true) ],
         None)) /\
  (exists forward,
      Asymmetric_trotter_step swap_network hamiltonian qubits time control_qubit
      = ([ swap_network qubits (Some forward) (Some true) None; Node layer ],
         None)) /\
  map (fun t => match t with
                | Leaf (On _ qs) => qs
                | Node _ => []
                end) layer
  = map (fun q => [q]) (rev qubits).
Proof.
  intros N layer.
  assert (Hlayer :
            map (fun p => Leaf (On (rz (- real (one_body hamiltonian (fst p) (fst p))
                                        * time)) [snd p]))
                (enumerate (rev qubits)) = layer).
  { unfold layer, N. rewrite enumerate_rev, map_map, map_rev. reflexivity. }
  split; [| split].
  - eexists. eexists. unfold Symmetric_trotter_step, yield_nested.
    rewrite TrotterFacts.potential_layer_reversed, Hlayer. reflexivity.
  - eexists. unfold Asymmetric_trotter_step, yield_nested.
    rewrite TrotterFacts.potential_layer_reversed, Hlayer. reflexivity.
  - unfold layer. rewrite !map_rev, map_map. f_equal. unfold enumerate.
    assert (Hsnd : forall (ks : list Z) (l : list Qid),
               List.length ks = List.length l ->
               map (fun p : Z * Qid => [snd p]) (combine ks l)
               = map (fun q => [q]) l).
    { induction ks as [| k ks IH]; intros [| q l] Hlen;
        try discriminate Hlen; [reflexivity |].
      cbn [combine map snd]. rewrite IH; [reflexivity |].
      cbn [List.length] in Hlen. lia. }
    apply Hsnd. unfold range. rewrite length_map, length_seq. lia.
Qed.


End Facts.

End TrotterExtras.

(** ** Further properties of optimal_givens_decomposition.py *)

Module GivensExtras.

Import OptimalGivens GivensSchedule GivensFacts.

Section Facts.

Local Open Scope Z_scope.

Variable Qid : Type.
Variable givens_matrix_elements : complex -> complex -> Side -> Mat2.
Variable givens_rotate : ndarray -> Mat2 -> Z -> Z -> Axis -> Z -> Z -> complex.
Variable arcsin : Q -> Q.
Variable angle : complex -> Q.
Variable pi : Q.

Abbreviation decompose :=
  (optimal_givens_decomposition givens_matrix_elements givens_rotate
     arcsin angle pi).
Abbreviation ordered := (ordered_rotations givens_matrix_elements givens_rotate).
Abbreviation eliminated := (eliminate givens_matrix_elements givens_rotate).
Abbreviation recorded := (OptimalGivens.recorded arcsin angle).
Abbreviation elim_by_column :=
  (eliminate_by_column givens_matrix_elements givens_rotate).
Abbreviation elim_by_row :=
  (eliminate_by_row givens_matrix_elements givens_rotate).
Abbreviation elim_step := (eliminate_step givens_matrix_elements givens_rotate).

(** *** The pairs the loops record *)

Lemma eliminate_by_column_pairs (N i j : Z) (s s' : Elimination) :
  elim_by_column N i s j = inr s' ->
  map snd (right_rotations s')
  = map snd (right_rotations s) ++ [(i - j - 1, i - j)] /\
  map snd (left_rotations s') = map snd (left_rotations s).
Proof.
  unfold eliminate_by_column, bind.
  destruct (getitem2 (unitary s) (N - j - 1) (i - j - 1)) as [e1 | a];
    [discriminate |].
  destruct (getitem2 (unitary s) (N - j - 1) (i - j - 1 + 1)) as [e2 | b];
    [discriminate |].
  intros H. inversion H; subst. cbn [right_rotations left_rotations].
  rewrite map_app. split; reflexivity.
Qed.

Lemma eliminate_by_row_pairs (N i j : Z) (s s' : Elimination) :
  elim_by_row N i s j = inr s' ->
  map snd (right_rotations s') = map snd (right_rotations s) /\
  map snd (left_rotations s')
  = map snd (left_rotations s) ++ [(N + j - i - 2, N + j - i - 1)].
Proof.
  unfold eliminate_by_row, bind.
  destruct (getitem2 (unitary s) (N + j - i - 1 - 1) (j - 1)) as [e1 | a];
    [discriminate |].
  destruct (getitem2 (unitary s) (N + j - i - 1) (j - 1)) as [e2 | b];
    [discriminate |].
  intros H. inversion H; subst. cbn [right_rotations left_rotations].
  rewrite map_app. split; reflexivity.
Qed.

Lemma fold_by_column_pairs (N i : Z) (js : list Z) (s s' : Elimination) :
  fold_exn (elim_by_column N i) js s = inr s' ->
  map snd (right_rotations s')
  = map snd (right_rotations s) ++ map (fun j => (i - j - 1, i - j)) js /\
  map snd (left_rotations s') = map snd (left_rotations s).
Proof.
  revert s. induction js as [| j js IH]; intros s H.
  - inversion H; subst. cbn [map]. rewrite app_nil_r. split; reflexivity.
  - cbn [fold_exn] in H.
    destruct (elim_by_column N i s j) as [e | s1] eqn:Hstep; [discriminate H |].
    destruct (eliminate_by_column_pairs _ _ _ _ Hstep) as [Hr Hl].
    destruct (IH s1 H) as [Hr' Hl'].
    rewrite Hr', Hl', Hr, Hl, <- app_assoc. split; reflexivity.
Qed.

Lemma fold_by_row_pairs (N i : Z) (js : list Z) (s s' : Elimination) :
  fold_exn (elim_by_row N i) js s = inr s' ->
  map snd (right_rotations s') = map snd (right_rotations s) /\
  map snd (left_rotations s')
  = map snd (left_rotations s)
    ++ map (fun j => (N + j - i - 2, N + j - i - 1)) js.
Proof.
  revert s. induction js as [| j js IH]; intros s H.
  - inversion H; subst. cbn [map]. rewrite app_nil_r. split; reflexivity.
  - cbn [fold_exn] in H.
    destruct (elim_by_row N i s j) as [e | s1] eqn:Hstep; [discriminate H |].
    destruct (eliminate_by_row_pairs _ _ _ _ Hstep) as [Hr Hl].
    destruct (IH s1 H) as [Hr' Hl'].
    rewrite Hr', Hl', Hr, Hl, <- app_assoc. split; reflexivity.
Qed.

Lemma eliminate_fold_pairs (N : Z) (steps : list Z) (s e : Elimination) :
  fold_exn (elim_step N) steps s = inr e ->
  map snd (right_rotations e)
  = map snd (right_rotations s)
    ++ flat_map (fun i => if i mod 2 =? 1 then column_pairs i else []) steps /\
  map snd (left_rotations e)
  = map snd (left_rotations s)
    ++ flat_map (fun i => if i mod 2 =? 1 then [] else row_pairs N i) steps.
Proof.
  revert s. induction steps as [| i steps IH]; intros s H.
  - inversion H; subst. cbn [flat_map]. rewrite !app_nil_r. split; reflexivity.
  - cbn [fold_exn] in H.
    destruct (elim_step N s i) as [e1 | s1] eqn:Hstep; [discriminate H |].
    destruct (IH s1 H) as [Hr Hl]. rewrite Hr, Hl. cbn [flat_map].
    unfold eliminate_step in Hstep. destruct (i mod 2 =? 1).
    + destruct (fold_by_column_pairs _ _ _ _ Hstep) as [Hr1 Hl1].
      rewrite Hr1, Hl1, <- app_assoc. split; reflexivity.
    + destruct (fold_by_row_pairs _ _ _ _ Hstep) as [Hr1 Hl1].
      rewrite Hr1, Hl1, <- app_assoc. split; reflexivity.
Qed.

(** The pairs of the recorded rotations depend on [N] alone. *)
Lemma eliminate_pairs (N : Z) (u : ndarray) (e : Elimination) :
  eliminated N u = inr e ->
  map snd (right_rotations e) = right_pairs N /\
  map snd (left_rotations e) = left_pairs N.
Proof.
  unfold eliminate. intros H.
  destruct (eliminate_fold_pairs _ _ _ H) as [Hr Hl].
  rewrite Hr, Hl. split; reflexivity.
Qed.

Lemma emission_pairs_adjacent (N : Z) :
  Forall (fun ij => 0 <= fst ij /\ snd ij = fst ij + 1 /\ snd ij < N)
         (emission_pairs N).
Proof.
  unfold emission_pairs. apply Forall_app. split; [| apply Forall_rev].
  - unfold right_pairs. apply Forall_forall. intros ij Hin.
    apply in_flat_map in Hin as [i [Hi Hin]].
    pose proof (range_bounds 1 N) as Hb. rewrite Forall_forall in Hb.
    specialize (Hb i Hi). destruct (i mod 2 =? 1); [| destruct Hin].
    unfold column_pairs in Hin. apply in_map_iff in Hin as [j [<- Hj]].
    pose proof (range_bounds 0 i) as Hbj. rewrite Forall_forall in Hbj.
    specialize (Hbj j Hj). cbn [fst snd]. lia.
  - unfold left_pairs. apply Forall_forall. intros ij Hin.
    apply in_flat_map in Hin as [i [Hi Hin]].
    pose proof (range_bounds 1 N) as Hb. rewrite Forall_forall in Hb.
    specialize (Hb i Hi). destruct (i mod 2 =? 1); [destruct Hin |].
    unfold row_pairs in Hin. apply in_map_iff in Hin as [j [<- Hj]].
    pose proof (range_bounds 1 (i + 1)) as Hbj. rewrite Forall_forall in Hbj.
    specialize (Hbj j Hj). cbn [fst snd]. lia.
Qed.

(** What is known of the merged rotations and of the migrated array of an
    [N] x [N] input. *)
Lemma ordered_layout (u u' : ndarray) (merged : list Rotation) :
  square u -> ordered u = inr (u', merged) ->
  square u' /\ shape0 u' = shape0 u /\
  Forall (within (shape0 u)) merged /\
  map snd (rev merged) = emission_pairs (shape0 u).
Proof.
  intros Hsq. unfold ordered_rotations, bind, migrate.
  destruct (@eliminate_total givens_matrix_elements givens_rotate u Hsq)
    as [e [He [[Hsqe [Hshape [Hright Hleft]]] _]]].
  rewrite He.
  destruct (eliminate_pairs _ _ He) as [Hrp Hlp].
  pose proof (migrate_from givens_matrix_elements (rev (left_rotations e))
                (unitary e, [])) as Hm.
  pose proof (@migrate_square givens_matrix_elements (shape0 u)
                (rev (left_rotations e)) (unitary e, []) Hsqe Hshape
                (Forall_rev Hleft)) as Hs.
  destruct (fold_exn _ _ _) as [exn | [u1 new_left]]; [discriminate |].
  intros H. inversion H; subst. clear H.
  destruct Hm as [_ [_ Hidx]]. destruct Hs as [Hsq' Hshape'].
  cbn [fst snd map app] in *.
  assert (Hnew : Forall (within (shape0 u)) new_left).
  { eapply within_by_index; [exact Hidx |]. apply Forall_rev. exact Hleft. }
  repeat split; try assumption.
  - apply merged_within; assumption.
  - unfold merged_rotations, emission_pairs.
    rewrite rev_app_distr, map_app, <- map_rev, !rev_involutive, map_map.
    cbn [snd]. unfold Rotation in *.
    change (map (fun x : Mat2 * (Z * Z) => snd x) (right_rotations e))
      with (map snd (right_rotations e)).
    rewrite Hrp, Hidx, map_rev, Hlp. reflexivity.
Qed.

(** The three ways the function can go on an [N] x [N] array: an exception
    of the loops before the output, a failed convention test, or the two
    output loops run on the recorded rotations and on the diagonal. *)
Lemma decompose_cases (qubits : list Qid) (u : ndarray) :
  square u ->
  (exists e, decompose qubits u = ([], Some e) /\ e <> IndexError) \/
  (exists u' merged,
      ordered u = inr (u', merged) /\
      square u' /\ shape0 u' = shape0 u /\
      Forall (within (shape0 u)) (rev merged) /\
      map snd (rev merged) = emission_pairs (shape0 u) /\
      decompose qubits u
      = gen_seq (emit_rotations pi qubits (map recorded (rev merged)))
                (emit_phases angle pi qubits (diag u'))).
Proof.
  intros Hsq. unfold optimal_givens_decomposition.
  pose proof (@ordered_layout u) as Hlay.
  destruct (ordered u) as [exn | [u' merged]] eqn:Hord.
  - left. exists exn. split; [reflexivity |].
    destruct (@eliminate_total givens_matrix_elements givens_rotate u Hsq)
      as [e [He [[Hsqe [Hshape [_ Hleft]]] _]]].
    pose proof (@migrate_square givens_matrix_elements (shape0 u)
                  (rev (left_rotations e)) (unitary e, []) Hsqe Hshape
                  (Forall_rev Hleft)) as Hs.
    unfold ordered_rotations, bind, migrate in Hord. rewrite He in Hord.
    destruct (fold_exn (migrate_step givens_matrix_elements)
                (rev (left_rotations e)) (unitary e, [])) as [exn' | s'];
      [| discriminate Hord].
    inversion Hord; subst. discriminate.
  - destruct (Hlay u' merged Hsq eq_refl) as [Hsq' [Hshape [Hwithin Hpairs]]].
    rewrite check_rotations_eq.
    destruct (forallb _ _).
    + right. exists u', merged. split; [reflexivity |].
      split; [exact Hsq' |]. split; [exact Hshape |].
      split; [apply Forall_rev; exact Hwithin |].
      split; [exact Hpairs |]. rewrite map_rev. reflexivity.
    + left. eexists. split; [reflexivity | discriminate].
Qed.

(** *** The output loops *)

Lemma gen_seq_total {A} (a b : list A) :
  gen_seq (a, None) (b, None) = (a ++ b, None).
Proof.
  reflexivity.
Qed.

Lemma pair_of_recorded (l : list Rotation) :
  map pair_of (map recorded l) = map snd l.
Proof.
  rewrite map_map. apply map_ext. intros [g [i j]]. reflexivity.
Qed.

Lemma Ryxxy_operands (d : Qid) (qubits : list Qid)
    (rotations : list (Z * Z * Q * Q)) (phases : list (Z * complex)) :
  map operands
      (filter is_Ryxxy
         (flat_map (rotation_ops pi d qubits) rotations
          ++ map (phase_op angle pi d qubits) phases))
  = map (qubit_pair d qubits) (map pair_of rotations).
Proof.
  induction rotations as [| [[[i j] theta] phi] rotations IH].
  - cbn [flat_map app map].
    induction phases as [| p phases IHp]; [reflexivity | exact IHp].
  - cbn [flat_map map]. rewrite <- app_assoc, filter_app, map_app, IH.
    unfold rotation_ops. destruct (isclose phi 0); reflexivity.
Qed.

Lemma rotation_ops_length (d : Qid) (qubits : list Qid)
    (rotations : list (Z * Z * Q * Q)) :
  (List.length rotations
   <= List.length (flat_map (rotation_ops pi d qubits) rotations)
   <= 2 * List.length rotations)%nat.
Proof.
  induction rotations as [| [[[i j] theta] phi] rotations IH];
    [cbn; lia |].
  cbn [flat_map List.length]. rewrite length_app.
  unfold rotation_ops at 1 3. destruct (isclose phi 0); cbn [List.length app]; lia.
Qed.

Lemma phase_ops_in_order (d : Qid) (qubits : list Qid) (phases : list complex) :
  List.length phases = List.length qubits ->
  map (phase_op angle pi d qubits) (enumerate phases)
  = map (final_phase angle pi) (combine qubits phases).
Proof.
  revert phases. induction qubits as [| q qubits IH]; intros [| p phases] Hlen;
    try discriminate Hlen; [reflexivity |].
  rewrite TrotterExtras.enumerate_cons. cbn [map combine]. f_equal.
  rewrite <- IH by (cbn in Hlen; lia). rewrite map_map.
  apply map_ext_in. intros [k x] Hin.
  apply enumerate_bounds in Hin. cbn [fst] in Hin.
  unfold phase_op. cbn [fst snd].
  replace (Z.to_nat (k + 1)) with (S (Z.to_nat k)) by lia. reflexivity.
Qed.

Lemma rotation_ops_app (d : Qid) (qubits extra : list Qid)
    (rotations : list Rotation) :
  Forall (within (Z.of_nat (List.length qubits))) rotations ->
  flat_map (rotation_ops pi d (qubits ++ extra)) (map recorded rotations)
  = flat_map (rotation_ops pi d qubits) (map recorded rotations).
Proof.
  induction 1 as [| [g [i j]] rotations [Hi Hj] _ IH]; [reflexivity |].
  cbn [map flat_map]. rewrite IH. f_equal.
  cbn [fst snd] in Hi, Hj. unfold OptimalGivens.recorded, rotation_ops.
  cbn [fst snd]. rewrite !app_nth1 by lia. reflexivity.
Qed.

Lemma phase_ops_app (d : Qid) (qubits extra : list Qid) (phases : list complex) :
  (List.length phases <= List.length qubits)%nat ->
  map (phase_op angle pi d (qubits ++ extra)) (enumerate phases)
  = map (phase_op angle pi d qubits) (enumerate phases).
Proof.
  intros Hlen. apply map_ext_in. intros [k x] Hin.
  apply enumerate_bounds in Hin. cbn [fst] in Hin.
  unfold phase_op. cbn [fst snd]. rewrite app_nth1 by lia. reflexivity.
Qed.

Lemma enumerate_index {A} (l : list A) (k : nat) :
  (k < List.length l)%nat -> exists x, In (Z.of_nat k, x) (enumerate l).
Proof.
  revert k. induction l as [| a l IH]; intros k Hk; [cbn in Hk; lia |].
  rewrite TrotterExtras.enumerate_cons. destruct k as [| k].
  - exists a. left. reflexivity.
  - destruct (IH k) as [x Hx]; [cbn in Hk; lia |].
    exists x. right. apply in_map_iff. exists (Z.of_nat k, x).
    split; [| exact Hx]. cbn [fst snd]. f_equal. lia.
Qed.

Lemma gen_for_fails {A B} (f : A -> Exn + B) (l : list A) (x : A) (e : Exn) :
  In x l -> f x = inl e -> raised (gen_for f l) <> None.
Proof.
  intros Hin Hx. induction l as [| a l IH]; [destruct Hin |].
  cbn [gen_for]. destruct (f a) as [e' | b] eqn:Ha; [discriminate |].
  destruct Hin as [-> | Hin]; [congruence |].
  unfold yield_then, raised. cbn [snd]. apply IH. exact Hin.
Qed.

Lemma emit_phases_too_few (qubits : list Qid) (phases : list complex) :
  (List.length qubits < List.length phases)%nat ->
  raised (emit_phases angle pi qubits phases) <> None.
Proof.
  intros Hlen. destruct (@enumerate_index _ phases _ Hlen) as [x Hx].
  unfold emit_phases. eapply gen_for_fails; [exact Hx |].
  cbn beta iota. unfold py_getitem.
  destruct (Z.ltb_spec (Z.of_nat (List.length qubits)) 0) as [Hneg | _]; [lia |].
  destruct (Z.leb_spec 0 (Z.of_nat (List.length qubits))) as [_ | Hneg];
    [| lia].
  rewrite Z.ltb_irrefl. reflexivity.
Qed.

(** X6. On an N x N array and N qubits, when no exception is raised, the
    Ryxxy rotations of the output act, in this order, on the qubit pairs at
    the indices [emission_pairs N]: the pairs of the column eliminations in
    the order of the loops, then the pairs of the row eliminations
    backwards.  The order depends on N alone, and every pair is a pair of
    neighbours [(k, k + 1)] with [0 <= k] and [k + 1 < N]. *)
Theorem rotations_follow_fixed_schedule (qubits : list Qid) (u : ndarray)
    (d : Qid) :
  square u -> Z.of_nat (List.length qubits) = shape0 u ->
  raised (decompose qubits u) = None ->
  map operands (filter is_Ryxxy (yielded (decompose qubits u)))
  = map (qubit_pair d qubits) (emission_pairs (shape0 u)) /\
  Forall (fun ij => 0 <= fst ij /\ snd ij = fst ij + 1 /\ snd ij < shape0 u)
         (emission_pairs (shape0 u)).
Proof.
  intros Hsq Hlen Hnone. split; [| apply emission_pairs_adjacent].
  destruct (@decompose_cases qubits u Hsq)
    as [[e [He _]] | [u' [merged [_ [Hsq' [Hshape [Hwithin [Hpairs Hrun]]]]]]]].
  - rewrite He in Hnone. discriminate Hnone.
  - rewrite Hrun. rewrite <- Hlen in Hwithin.
    rewrite (@emit_rotations_in_range Qid arcsin angle pi d qubits _ Hwithin).
    rewrite (@emit_phases_in_range Qid angle pi d qubits).
    + rewrite gen_seq_total. unfold yielded. cbn [fst].
      rewrite Ryxxy_operands, pair_of_recorded, Hpairs. reflexivity.
    + rewrite (diag_square Hsq'). unfold shape0 in *. lia.
Qed.

(** X7. Qubits beyond the N-th are never used: on an N x N array, appending
    further qubits to a sequence of N qubits changes neither the operations
    yielded nor the exception raised. *)
Theorem extra_qubits_are_ignored (qubits extra : list Qid) (u : ndarray) :
  square u -> Z.of_nat (List.length qubits) = shape0 u ->
  decompose (qubits ++ extra) u = decompose qubits u.
Proof.
  intros Hsq Hlen.
  destruct qubits as [| d qubits].
  { destruct u as [| line u]; [reflexivity | discriminate Hlen]. }
  unfold optimal_givens_decomposition.
  pose proof (@ordered_layout u) as Hlay.
  destruct (ordered u) as [exn | [u' merged]]; [reflexivity |].
  destruct (Hlay u' merged Hsq eq_refl) as [Hsq' [Hshape [Hwithin _]]].
  rewrite check_rotations_eq.
  destruct (forallb _ _); [| reflexivity].
  rewrite <- map_rev. apply Forall_rev in Hwithin. rewrite <- Hlen in Hwithin.
  assert (Hmore : Forall (within (Z.of_nat
                            (List.length ((d :: qubits) ++ extra))))
                         (rev merged)).
  { eapply Forall_impl; [| exact Hwithin].
    intros r [Hi Hj]. rewrite length_app. split; lia. }
  assert (Hdiag : (List.length (diag u') <= List.length (d :: qubits))%nat).
  { rewrite (diag_square Hsq'). unfold shape0 in *. lia. }
  rewrite (@emit_rotations_in_range Qid arcsin angle pi d _ _ Hwithin).
  rewrite (@emit_rotations_in_range Qid arcsin angle pi d _ _ Hmore).
  rewrite (@emit_phases_in_range Qid angle pi d (d :: qubits)) by exact Hdiag.
  rewrite (@emit_phases_in_range Qid angle pi d ((d :: qubits) ++ extra))
    by (rewrite length_app; lia).
  rewrite (@rotation_ops_app d (d :: qubits) extra (rev merged) Hwithin).
  rewrite (@phase_ops_app d (d :: qubits) extra (diag u') Hdiag).
  reflexivity.
Qed.

(** X8. With fewer qubits than rows the decomposition never finishes
    normally: on an N x N array an exception is raised whatever the
    entries are, and when the failure is not one of the two internal
    errors it is the [IndexError] of indexing [qubits]. *)
Theorem too_few_qubits_raise (qubits : list Qid) (u : ndarray) :
  square u -> Z.of_nat (List.length qubits) < shape0 u ->
  exists e, raised (decompose qubits u) = Some e /\
            (e = IndexError \/ yielded (decompose qubits u) = []).
Proof.
  intros Hsq Hlen.
  destruct (@decompose_cases qubits u Hsq)
    as [[e [He _]] | [u' [merged [_ [Hsq' [Hshape [_ [_ Hrun]]]]]]]].
  - exists e. rewrite He. split; [reflexivity | right; reflexivity].
  - rewrite Hrun. unfold gen_seq.
    destruct (raised (emit_rotations pi qubits (map recorded (rev merged))))
      as [e |] eqn:Hr.
    + exists e. split; [exact Hr | left].
      exact (@emit_rotations_raised Qid pi qubits _ e Hr).
    + assert (Hfew : (List.length qubits < List.length (diag u'))%nat).
      { rewrite (diag_square Hsq'). unfold shape0 in *. lia. }
      pose proof (@emit_phases_too_few qubits (diag u') Hfew) as Hp.
      unfold raised at 1. cbn [snd].
      destruct (raised (emit_phases angle pi qubits (diag u'))) as [e |] eqn:Hq;
        [| congruence].
      exists e. split; [reflexivity | left].
      exact (@emit_phases_raised Qid angle pi qubits _ e Hq).
Qed.

(** X9. Once an operation has been yielded, the only exception that can
    still end the generator is the [IndexError] of indexing [qubits]:
    [GivensTranspositionError], [GivensMatrixError] and an [IndexError] of
    the array are raised before the first operation. *)
Theorem internal_errors_precede_output (qubits : list Qid) (u : ndarray)
    (e : Exn) :
  raised (decompose qubits u) = Some e ->
  yielded (decompose qubits u) <> [] ->
  e = IndexError.
Proof.
  unfold optimal_givens_decomposition.
  destruct (ordered u) as [exn | [u' merged]];
    [intros _ H; exfalso; apply H; reflexivity |].
  destruct (check_rotations arcsin angle merged) as [exn | rotations];
    [intros _ H; exfalso; apply H; reflexivity |].
  intros Hr _. apply gen_seq_raised in Hr. destruct Hr as [Hr | Hr].
  - exact (@emit_rotations_raised Qid pi qubits _ e Hr).
  - exact (@emit_phases_raised Qid angle pi qubits _ e Hr).
Qed.

(** X10. On an N x N array and N qubits a decomposition that finishes
    yields at least N (N - 1) / 2 + N and at most 2 (N (N - 1) / 2) + N
    operations: one Ryxxy for each of the N (N - 1) / 2 rotations, at most
    one Z power before each of them, and N Z powers at the end. *)
Theorem operation_count_bounds (qubits : list Qid) (u : ndarray) :
  square u -> Z.of_nat (List.length qubits) = shape0 u ->
  raised (decompose qubits u) = None ->
  shape0 u * (shape0 u - 1) / 2 + shape0 u
  <= Z.of_nat (List.length (yielded (decompose qubits u)))
  <= 2 * (shape0 u * (shape0 u - 1) / 2) + shape0 u.
Proof.
  intros Hsq Hlen Hnone.
  destruct qubits as [| d qubits].
  { destruct u as [| line u]; [cbn; lia | discriminate Hlen]. }
  destruct (@decompose_structure Qid givens_matrix_elements givens_rotate
              arcsin angle pi (d :: qubits) u d Hsq Hlen)
    as [[msg H] | [[msg H] | [rotations [phases [H [Hrot Hph]]]]]];
    try (rewrite H in Hnone; discriminate Hnone).
  rewrite H. unfold yielded. cbn [fst].
  rewrite length_app, length_map, enumerate_length.
  pose proof (rotation_ops_length d (d :: qubits) rotations) as Hb.
  lia.
Qed.

(** X11. On an N x N array and N qubits a decomposition that finishes ends
    with exactly one Z power on each qubit, in the order of [qubits]: the
    exponent on the k-th qubit is [angle(phase) / pi] for the k-th entry of
    the diagonal of the array left by the phase migration.  All the Ryxxy
    rotations come before these N operations. *)
Theorem output_ends_with_a_phase_on_each_qubit (qubits : list Qid)
    (u : ndarray) :
  square u -> Z.of_nat (List.length qubits) = shape0 u ->
  raised (decompose qubits u) = None ->
  exists ops u' merged,
    ordered u = inr (u', merged) /\
    yielded (decompose qubits u)
    = ops ++ map (final_phase angle pi) (combine qubits (diag u')) /\
    List.length (diag u') = List.length qubits /\
    List.length (filter is_Ryxxy ops)
    = List.length (emission_pairs (shape0 u)).
Proof.
  intros Hsq Hlen Hnone.
  destruct qubits as [| d qubits].
  { destruct u as [| line u]; [| discriminate Hlen].
    exists [], [], []. repeat split. }
  destruct (@decompose_cases (d :: qubits) u Hsq)
    as [[e [He _]] | [u' [merged [Hord [Hsq' [Hshape [Hwithin [Hpairs Hrun]]]]]]]].
  { rewrite He in Hnone. discriminate Hnone. }
  assert (Hsame : List.length (diag u') = List.length (d :: qubits)).
  { rewrite (diag_square Hsq'). unfold shape0 in *. lia. }
  exists (flat_map (rotation_ops pi d (d :: qubits))
                   (map recorded (rev merged))), u', merged.
  split; [exact Hord |]. split; [| split; [exact Hsame |]].
  - rewrite Hrun. rewrite <- Hlen in Hwithin.
    rewrite (@emit_rotations_in_range Qid arcsin angle pi d _ _ Hwithin).
    rewrite (@emit_phases_in_range Qid angle pi d (d :: qubits))
      by (rewrite Hsame; apply Nat.le_refl).
    rewrite gen_seq_total, (@phase_ops_in_order d (d :: qubits) _ Hsame).
    reflexivity.
  - pose proof (@count_Ryxxy Qid angle pi d (d :: qubits)
                  (map recorded (rev merged)) []) as Hc.
    cbn [map] in Hc. rewrite app_nil_r in Hc.
    rewrite Hc, <- Hpairs, !length_map. reflexivity.
Qed.

(** X12. The two smallest arrays.  An empty array yields nothing, whatever
    [qubits] is.  A 1 x 1 array [[z]] calls no helper and yields the single
    operation [Z ** (angle(z) / pi)] on the first qubit; without a qubit it
    raises [IndexError] before yielding anything. *)
Theorem smallest_arrays (q : Qid) (qubits : list Qid) (z : complex) :
  decompose qubits [] = ([], None) /\
  decompose (q :: qubits) [[z]] = ([On (ZPow (angle z / pi)%Q) [q]], None) /\
  decompose (@nil Qid) [[z]] = ([], Some IndexError).
Proof.
  split; [reflexivity |]. split; [| reflexivity].
  unfold optimal_givens_decomposition.
  assert (Hord : ordered [[z]] = inr ([[z]], [])) by reflexivity.
  rewrite Hord. cbn [check_rotations fold_exn rev emit_rotations].
  assert (Hdiag : diag [[z]] = [z]) by reflexivity.
  rewrite Hdiag.
  rewrite (@emit_phases_in_range Qid angle pi q (q :: qubits) [z])
    by (cbn [List.length]; lia).
  reflexivity.
Qed.

End Facts.

(** *** Runs on concrete matrices *)

Import GivensRotations.

(** For four rows: one column elimination, two row eliminations and three
    column eliminations, the rows read backwards at the end. *)
Example emission_pairs_of_four :
  emission_pairs 4
  = [(0, 1); (2, 3); (1, 2); (0, 1); (2, 3); (1, 2)]%Z.
Proof.
  reflexivity.
Qed.

Lemma rotations_follow_fixed_schedule_witness :
  square complex_unitary /\
  map operands
      (filter is_Ryxxy
         (yielded (GivensRotations.decompose [10; 11; 12]%nat complex_unitary)))
  = map (qubit_pair 0%nat [10; 11; 12]%nat)
        (emission_pairs (shape0 complex_unitary)).
Proof.
  assert (Hsq : square complex_unitary) by repeat constructor.
  split; [exact Hsq |].
  assert (Hnone : raised (GivensRotations.decompose [10; 11; 12]%nat
                            complex_unitary) = None)
    by (vm_compute; reflexivity).
  exact (proj1 (@rotations_follow_fixed_schedule nat
                  GivensRotations.givens_matrix_elements
                  GivensRotations.givens_rotate arcsin_stub angle_stub pi_stub
                  [10; 11; 12]%nat complex_unitary 0%nat Hsq eq_refl Hnone)).
Defined.

Lemma extra_qubits_are_ignored_witness :
  square real_rotation /\
  GivensRotations.decompose ([10; 11] ++ [12; 13])%nat real_rotation
  = GivensRotations.decompose [10; 11]%nat real_rotation.
Proof.
  assert (Hsq : square real_rotation) by repeat constructor.
  split; [exact Hsq |].
  exact (@extra_qubits_are_ignored nat GivensRotations.givens_matrix_elements
           GivensRotations.givens_rotate arcsin_stub angle_stub pi_stub
           [10; 11]%nat [12; 13]%nat real_rotation Hsq eq_refl).
Defined.

Lemma too_few_qubits_raise_witness :
  square complex_unitary /\
  exists e,
    raised (GivensRotations.decompose [10; 11]%nat complex_unitary) = Some e /\
    (e = IndexError \/
     yielded (GivensRotations.decompose [10; 11]%nat complex_unitary) = []).
Proof.
  assert (Hsq : square complex_unitary) by repeat constructor.
  split; [exact Hsq |].
  apply (@too_few_qubits_raise nat GivensRotations.givens_matrix_elements
           GivensRotations.givens_rotate arcsin_stub angle_stub pi_stub
           [10; 11]%nat complex_unitary Hsq).
  vm_compute. reflexivity.
Defined.

Lemma internal_errors_precede_output_witness :
  exists e,
    raised (GivensRotations.decompose [10; 11]%nat complex_unitary) = Some e /\
    yielded (GivensRotations.decompose [10; 11]%nat complex_unitary) <> [] /\
    e = IndexError.
Proof.
  destruct (raised (GivensRotations.decompose [10; 11]%nat complex_unitary))
    as [e |] eqn:Hr.
  - assert (Hy : yielded (GivensRotations.decompose [10; 11]%nat
                            complex_unitary) <> [])
      by (vm_compute; discriminate).
    exists e. split; [reflexivity |]. split; [exact Hy |].
    exact (@internal_errors_precede_output nat
             GivensRotations.givens_matrix_elements
             GivensRotations.givens_rotate arcsin_stub angle_stub pi_stub
             [10; 11]%nat complex_unitary e Hr Hy).
  - vm_compute in Hr. discriminate Hr.
Defined.

Lemma operation_count_bounds_witness :
  square complex_unitary /\
  (6 <= Z.of_nat (List.length
                    (yielded (GivensRotations.decompose [10; 11; 12]%nat
                                complex_unitary)))
     <= 9)%Z.
Proof.
  assert (Hsq : square complex_unitary) by repeat constructor.
  split; [exact Hsq |].
  assert (Hnone : raised (GivensRotations.decompose [10; 11; 12]%nat
                            complex_unitary) = None)
    by (vm_compute; reflexivity).
  exact (@operation_count_bounds nat GivensRotations.givens_matrix_elements
           GivensRotations.givens_rotate arcsin_stub angle_stub pi_stub
           [10; 11; 12]%nat complex_unitary Hsq eq_refl Hnone).
Defined.

Lemma output_ends_with_a_phase_on_each_qubit_witness :
  square complex_unitary /\
  exists ops u' merged,
    ordered_rotations GivensRotations.givens_matrix_elements
      GivensRotations.givens_rotate complex_unitary = inr (u', merged) /\
    yielded (GivensRotations.decompose [10; 11; 12]%nat complex_unitary)
    = ops ++ map (final_phase angle_stub pi_stub)
                 (combine [10; 11; 12]%nat (diag u')) /\
    List.length (diag u') = 3%nat /\
    List.length (filter is_Ryxxy ops)
    = List.length (emission_pairs (shape0 complex_unitary)).
Proof.
  assert (Hsq : square complex_unitary) by repeat constructor.
  split; [exact Hsq |].
  assert (Hnone : raised (GivensRotations.decompose [10; 11; 12]%nat
                            complex_unitary) = None)
    by (vm_compute; reflexivity).
  exact (@output_ends_with_a_phase_on_each_qubit nat
           GivensRotations.givens_matrix_elements
           GivensRotations.givens_rotate arcsin_stub angle_stub pi_stub
           [10; 11; 12]%nat complex_unitary Hsq eq_refl Hnone).
Defined.

End GivensExtras.
